(** * fastGHQuad: Gauss-Hermite quadrature rules (src/lib.cpp)

    A shallow embedding of the C++ translation unit [src/lib.cpp] and the
    properties of it that the specification states.

    Conventions of the embedding.
    - [double] is IEEE-754 binary64 with round-to-nearest-even, taken from
      the executable specification [SpecFloat] (precision 53, emax 1024).
    - [int] is 32 bits, [unsigned int] is 32 bits and [long] is 64 bits
      (LP64); they are integers of [Z] whose wrap-around is written out.
      A conversion from [double] to an integer type truncates toward zero;
      out of range it yields what the x86-64 conversion instruction yields.
    - A [std::vector] is a list. An access outside the vector is
      [Undefined]; an allocation of negative size is [Throw].
    - The LAPACK routines [dstevx] and [dgeev] and the libm functions
      [log], [exp], [lgamma], [pow] and [log2] are external: they are
      parameters of the development.
    - Messages written to [Rcpp::Rcout] are diagnostics and are left out. *)

From Stdlib Require Import ZArith List Bool Lia Ascii SpecFloat.
Import ListNotations.
Local Open Scope Z_scope.

(** ** Outcomes of a computation

    A call returns normally ([Ok]), is left by a C++ exception or an R
    error ([Throw]: [std::length_error] or [std::bad_alloc] from a vector
    of negative size, a negative length given to R), or does something the
    language does not define ([Undefined]: an access outside a vector). *)

Inductive result (A : Type) : Type :=
| Ok (a : A)
| Throw
| Undefined.
Arguments Ok {A} a.
Arguments Throw {A}.
Arguments Undefined {A}.

Definition bind {A B} (m : result A) (k : A -> result B) : result B :=
  match m with
  | Ok a => k a
  | Throw => Throw
  | Undefined => Undefined
  end.

Notation "x <- m ;; k" := (bind m (fun x => k))
  (at level 61, m at next level, right associativity).
Notation "' pat <- m ;; k" := (bind m (fun x => match x with pat => k end))
  (at level 61, pat pattern, m at next level, right associativity).

(** ** Machine integers *)

Module MachInt.

Definition INT_MAX : Z := 2147483647.
Definition INT_MIN : Z := -2147483648.
Definition LONG_MAX : Z := 9223372036854775807.
Definition LONG_MIN : Z := -9223372036854775808.

(** Two's complement reduction to [w] bits, signed and unsigned. *)
Definition swrap (w : Z) (z : Z) : Z := (z + 2 ^ (w - 1)) mod 2 ^ w - 2 ^ (w - 1).
Definition uwrap (w : Z) (z : Z) : Z := z mod 2 ^ w.

Definition int_add (a b : Z) : Z := swrap 32 (a + b).
Definition int_sub (a b : Z) : Z := swrap 32 (a - b).
Definition int_mul (a b : Z) : Z := swrap 32 (a * b).

Definition long_mul (a b : Z) : Z := swrap 64 (a * b).

Definition uint_of_int (a : Z) : Z := uwrap 32 a.
Definition uint_add (a b : Z) : Z := uwrap 32 (a + b).
Definition uint_mul (a b : Z) : Z := uwrap 32 (a * b).

End MachInt.
Import MachInt.

Declare Scope int_scope.
Delimit Scope int_scope with int.
Notation "a [+] b" := (int_add a b) (at level 50, left associativity) : int_scope.
Notation "a [-] b" := (int_sub a b) (at level 50, left associativity) : int_scope.
Notation "a [*] b" := (int_mul a b) (at level 40, left associativity) : int_scope.

(** ** Doubles *)

Module Double.

Definition double : Type := spec_float.

Definition prec : Z := 53.
Definition emax : Z := 1024.

Definition add : double -> double -> double := SFadd prec emax.
Definition sub : double -> double -> double := SFsub prec emax.
Definition mul : double -> double -> double := SFmul prec emax.
Definition div : double -> double -> double := SFdiv prec emax.
Definition sqrt : double -> double := SFsqrt prec emax.
Definition opp : double -> double := SFopp.
Definition abs : double -> double := SFabs.
Definition ltb : double -> double -> bool := SFltb.
Definition leb : double -> double -> bool := SFleb.

(** The double nearest to [m * 2^e]. *)
Definition lit (m e : Z) : double := binary_normalize prec emax m e false.

(** Conversion of an integer ([int] or [long]) to [double]. *)
Definition of_Z (z : Z) : double := lit z 0.

Definition zero : double := S754_zero false.
Definition one : double := Eval vm_compute in of_Z 1.
Definition two : double := Eval vm_compute in of_Z 2.
Definition four : double := Eval vm_compute in of_Z 4.
Definition half : double := Eval vm_compute in lit 1 (-1).
(** [M_PI], 0x1.921fb54442d18p+1. *)
Definition M_PI : double := Eval vm_compute in lit 7074237752028440 (-51).
(** [std::numeric_limits<double>::epsilon()], 2^-52. *)
Definition epsilon : double := Eval vm_compute in lit 1 (-52).

Definition is_nan (d : double) : bool :=
  match d with S754_nan => true | _ => false end.

Definition is_finite (d : double) : bool :=
  match d with S754_zero _ | S754_finite _ _ _ => true | _ => false end.

Definition is_zero (d : double) : bool :=
  match d with S754_zero _ => true | _ => false end.

(** Truncation toward zero of a finite double. *)
Definition trunc (d : double) : option Z :=
  match d with
  | S754_zero _ => Some 0
  | S754_finite s m e => Some (cond_Zopp s (Z.shiftl (Zpos m) e))
  | _ => None
  end.

(** [(long) d]: out of range, the x86-64 conversion gives [LONG_MIN]. *)
Definition to_long (d : double) : Z :=
  match trunc d with
  | Some z => if (LONG_MIN <=? z) && (z <=? LONG_MAX) then z else LONG_MIN
  | None => LONG_MIN
  end.

(** [(unsigned int) d]: the low 32 bits of the 64-bit conversion. *)
Definition to_uint (d : double) : Z := uwrap 32 (to_long d).

(** [(int) d]: out of range, the x86-64 conversion gives [INT_MIN]. *)
Definition to_int (d : double) : Z :=
  match trunc d with
  | Some z => if (INT_MIN <=? z) && (z <=? INT_MAX) then z else INT_MIN
  | None => INT_MIN
  end.

(** [std::ceil]. *)
Definition ceil (d : double) : double :=
  match d with
  | S754_finite s m e =>
      if 0 <=? e then d
      else
        let q := Z.shiftl (Zpos m) e in
        let exact := Z.shiftl q (- e) =? Zpos m in
        let z := if s then - q else if exact then q else q + 1 in
        if z =? 0 then S754_zero s else of_Z z
  | _ => d
  end.

End Double.
Import Double.

Declare Scope double_scope.
Delimit Scope double_scope with D.
Notation "a + b" := (Double.add a b) : double_scope.
Notation "a - b" := (Double.sub a b) : double_scope.
Notation "a * b" := (Double.mul a b) : double_scope.
Notation "a / b" := (Double.div a b) : double_scope.
Notation "- a" := (Double.opp a) : double_scope.

(** ** Vectors *)

Abbreviation vec := list.

Definition vget {A} (v : vec A) (i : Z) : result A :=
  if i <? 0 then Undefined
  else match nth_error v (Z.to_nat i) with
       | Some a => Ok a
       | None => Undefined
       end.

Fixpoint list_upd {A} (l : list A) (k : nat) (a : A) : list A :=
  match l, k with
  | [], _ => []
  | _ :: t, O => a :: t
  | h :: t, S k' => h :: list_upd t k' a
  end.

Definition vset {A} (v : vec A) (i : Z) (a : A) : result (vec A) :=
  if (0 <=? i) && (i <? Z.of_nat (length v)) then Ok (list_upd v (Z.to_nat i) a)
  else Undefined.

(** [std::vector<T> v(n)] with [n] an [int]: [n] value-initialised
    elements; a negative [n] becomes a size beyond [max_size()]. *)
Definition valloc {A} (n : Z) (a : A) : result (vec A) :=
  if n <? 0 then Throw else Ok (repeat a (Z.to_nat n)).

(** [v.resize(n)]. *)
Definition vresize {A} (v : vec A) (n : Z) (a : A) : result (vec A) :=
  if n <? 0 then Throw
  else Ok (firstn (Z.to_nat n) v ++ repeat a (Z.to_nat n - length v)).

(** What a routine that is handed [&v[0]] leaves in [v] when it stores the
    values [out] from the first element on. *)
Definition vstore {A} (v out : vec A) : result (vec A) :=
  if (length out <=? length v)%nat then Ok (out ++ skipn (length out) v)
  else Undefined.

(** ** Counted loops *)

Fixpoint for_loop {S} (k : nat) (i : Z) (body : Z -> S -> result S) (s : S) : result S :=
  match k with
  | O => Ok s
  | Datatypes.S k' => s' <- body i s ;; for_loop k' (i + 1) body s'
  end.

(** [for (i = lo; i < hi; i++) body]. *)
Definition for_range {S} (lo hi : Z) (body : Z -> S -> result S) (s : S) : result S :=
  for_loop (Z.to_nat (hi - lo)) lo body s.

(** ** The program *)

(** [buildHermiteJacobi], lines 6-38. *)
Definition buildHermiteJacobi (n : Z) (D E : vec double) : result (vec double * vec double) :=
  D' <- for_range 0 n (fun i D => vset D i zero) D ;;
  E' <- for_range 0 (n [-] 1)%int
          (fun i E => vset E i (sqrt ((of_Z i + one) / two)%D)) E ;;
  Ok (D', E').

(** The value [hermitePoly] computes when its loop counter stays an [int]. *)
Definition hermitePoly_steps (x : double) (k : nat) : double * double * double :=
  fst (Nat.iter k
         (fun '(hnm2, hnm1, hn, i) =>
            let hn := (two * x * hnm1 - two * (of_Z i - one) * hnm2)%D in
            (hnm1, hn, hn, i + 1))
         (one, (two * x)%D, zero, 2)).

(** [hermitePoly], lines 285-313. The loop [for (i = 2; i <= n; i++)] cannot
    leave with [n = INT_MAX]. *)
Definition hermitePoly (x : double) (n : Z) : result double :=
  if n =? 0 then Ok one
  else if n =? 1 then Ok (two * x)%D
  else if n =? INT_MAX then Undefined
  else
    let '(_, _, hn) := hermitePoly_steps x (Z.to_nat (n - 1)) in
    Ok hn.

(** [evalHermitePoly], lines 315-345. [x] is the numeric vector [xR] and
    [n] the integer vector [nR]; an element access does not check its
    index. *)
Definition evalHermitePoly (x : vec double) (n : vec Z) : result (vec double) :=
  let xsize := Z.of_nat (length x) in
  let nsize := Z.of_nat (length n) in
  if nsize =? xsize then
    h <- valloc xsize zero ;;
    for_range 0 xsize
      (fun i h => xi <- vget x i ;; ni <- vget n i ;;
                  v <- hermitePoly xi ni ;; vset h i v) h
  else if xsize >? nsize then
    h <- valloc xsize zero ;;
    for_range 0 xsize
      (fun i h => xi <- vget x i ;; n0 <- vget n 0 ;;
                  v <- hermitePoly xi n0 ;; vset h i v) h
  else
    h <- valloc nsize zero ;;
    for_range 0 nsize
      (fun i h => x0 <- vget x 0 ;; ni <- vget n i ;;
                  v <- hermitePoly x0 ni ;; vset h i v) h.

(** The recursion of lines 247-261 on the workspace of [hermitePolyCoef].
    [work] is a [vector<long>] in column-major order: [work[i + j * n1]],
    with [n1 = n + 1], is the coefficient of [x^j] in [H_i]. The first
    recurrence line is computed in [long], the second in [double] and
    converted back to [long]. *)
Definition hermite_recurrence (n1 : Z) (work : vec Z) : result (vec Z) :=
  work <- vset work 0 (to_long one) ;;
  work <- vset work 1 (to_long zero) ;;
  work <- vset work (1 [+] 1 [*] n1)%int (to_long two) ;;
  for_range 2 n1
    (fun i work =>
       a <- vget work (i [-] 2)%int ;;
       work <- vset work i (long_mul ((-2) [*] (i [-] 1))%int a) ;;
       for_range 1 (i [+] 1)%int
         (fun j work =>
            p <- vget work ((i [-] 1) [+] (j [-] 1) [*] n1)%int ;;
            q <- vget work ((i [-] 2) [+] j [*] n1)%int ;;
            vset work (i [+] j [*] n1)%int
              (to_long (two * of_Z p - two * (of_Z i - one) * of_Z q)%D))
         work)
    work.

(** [hermitePolyCoef] on vectors, lines 222-267. *)
Definition hermitePolyCoef (n : Z) (c : vec double) : result (vec double) :=
  let n1 := (n [+] 1)%int in
  work <- valloc (n1 [*] n1)%int 0 ;;
  work <- for_range 0 (n1 [*] n1)%int (fun i work => vset work i (to_long zero)) work ;;
  if n =? 0 then vset c 0 one
  else if n =? 1 then
    c <- vset c 0 zero ;;
    vset c 1 two
  else
    work <- hermite_recurrence n1 work ;;
    for_range 0 n1
      (fun j c => v <- vget work (n [+] j [*] n1)%int ;; vset c j (of_Z v)) c.

(** ** External routines *)

(** The libm functions the program calls. *)
Class Libm : Type := {
  log : double -> double;
  exp : double -> double;
  lgamma : double -> double;
  pow : double -> double -> double;
  log2 : double -> double
}.

(** What [dstevx] reads. The buffers [W], [Z], [WORK], [IWORK] and [IFAIL]
    are passed by address and are only written. *)
Record dstevx_in : Type := {
  sx_JOBZ : ascii;
  sx_RANGE : ascii;
  sx_N : Z;
  sx_D : vec double;
  sx_E : vec double;
  sx_VL : double;
  sx_VU : double;
  sx_IL : Z;
  sx_IU : Z;
  sx_ABSTOL : double;
  sx_LDZ : Z
}.

(** What [dstevx] stores: the count [M], the values it writes from [W[0]]
    on and from [Z[0]] on, and [INFO]. *)
Record dstevx_out : Type := {
  sx_M : Z;
  sx_W : vec double;
  sx_Z : vec double;
  sx_INFO : Z
}.

(** What [dgeev] reads; [VL] and [VR] are [NULL]. *)
Record dgeev_in : Type := {
  ge_JOBVL : ascii;
  ge_JOBVR : ascii;
  ge_N : Z;
  ge_A : vec double;
  ge_LDA : Z;
  ge_LDVL : Z;
  ge_LDVR : Z;
  ge_LWORK : Z
}.

(** What [dgeev] stores: the values it writes from [A[0]], [WR[0]] and
    [WI[0]] on, the content of [WORK[0]] on return, and [INFO]. *)
Record dgeev_out : Type := {
  ge_Aout : vec double;
  ge_WR : vec double;
  ge_WI : vec double;
  ge_WORK1 : double;
  ge_INFO : Z
}.

Class Lapack : Type := {
  dstevx : dstevx_in -> dstevx_out;
  dgeev : dgeev_in -> dgeev_out
}.

(** The locals [quadInfoGolubWelsch] allocates before the call. *)
Record quad_buffers : Type := {
  qb_Mmax : Z;
  qb_W : vec double;
  qb_Z : vec double;
  qb_WORK : vec double;
  qb_IWORK : vec Z;
  qb_IFAIL : vec Z
}.

Section Program.

Context {libm : Libm} {lapack : Lapack}.

(** The regression constants of line 92. *)
Definition Mmax_intercept : double := Eval vm_compute in lit 8186431964044369 (-52).
Definition Mmax_slope : double := Eval vm_compute in lit 4523728698894005 (-53).

(** [Mmax] as first assigned, line 92. *)
Definition Mmax_predicted (n : Z) : Z :=
  to_uint (ceil (pow two (Mmax_intercept + Mmax_slope * log2 (of_Z n))%D)).

(** Lines 85-101. *)
Definition quad_setup (n : Z) : result quad_buffers :=
  W <- valloc n zero ;;
  let Mmax := uint_add (Mmax_predicted n) 100 in
  Zv <- valloc (uint_mul Mmax (uint_of_int n)) zero ;;
  WORK <- valloc (5 [*] n)%int zero ;;
  IWORK <- valloc (5 [*] n)%int 0 ;;
  IFAIL <- valloc n 0 ;;
  Ok {| qb_Mmax := Mmax; qb_W := W; qb_Z := Zv;
        qb_WORK := WORK; qb_IWORK := IWORK; qb_IFAIL := IFAIL |}.

(** The arguments of the [dstevx] call, lines 77-83 and 105-109. *)
Definition quad_call (n : Z) (D E : vec double) : dstevx_in :=
  {| sx_JOBZ := "V"; sx_RANGE := "V"; sx_N := n; sx_D := D; sx_E := E;
     sx_VL := opp four; sx_VU := four; sx_IL := 0; sx_IU := 1;
     sx_ABSTOL := sqrt epsilon; sx_LDZ := n |}.

(** One turn of the loop of lines 117-125. *)
Definition quad_prune_step (n : Z) (mu0 : double) (W Zv : vec double) (i : Z)
    (s : vec double * vec double * Z) : result (vec double * vec double * Z) :=
  let '(x, w, numPoints) := s in
  z <- vget Zv (uint_mul i (uint_of_int n)) ;;
  let weightValue := (mu0 * z * z)%D in
  if ltb weightValue (sqrt epsilon) then Ok (x, w, numPoints)
  else
    wi <- vget W i ;;
    x <- vset x numPoints wi ;;
    w <- vset w numPoints weightValue ;;
    Ok (x, w, uint_add numPoints 1).

(** [quadInfoGolubWelsch], lines 40-131. *)
Definition quadInfoGolubWelsch (n : Z) (D E : vec double) (mu0 : double)
    (x w : vec double) : result (vec double * vec double) :=
  b <- quad_setup n ;;
  let o := dstevx (quad_call n D E) in
  W <- vstore (qb_W b) (sx_W o) ;;
  Zv <- vstore (qb_Z b) (sx_Z o) ;;
  let M := sx_M o in
  x <- vresize x M zero ;;
  w <- vresize w M zero ;;
  '(x, w, numPoints) <-
    for_range 0 (uint_of_int M) (quad_prune_step n mu0 W Zv) (x, w, 0) ;;
  x <- vresize x numPoints zero ;;
  w <- vresize w numPoints zero ;;
  Ok (x, w).

(** The arguments of a [dgeev] call, lines 179-188 and 193-202. *)
Definition roots_call (n : Z) (C : vec double) (LWORK : Z) : dgeev_in :=
  {| ge_JOBVL := "N"; ge_JOBVR := "N"; ge_N := n; ge_A := C; ge_LDA := n;
     ge_LDVL := 1; ge_LDVR := 1; ge_LWORK := LWORK |}.

(** The companion matrix of lines 147-161, column-major. *)
Definition companion (c : vec double) (n : Z) : result (vec double) :=
  C <- valloc (n [*] n)%int zero ;;
  C <- for_range 0 (n [*] n)%int (fun i C => vset C i zero) C ;;
  C <- for_range 1 n (fun i C => vset C (i [+] n [*] (i [-] 1))%int one) C ;;
  for_range 0 n
    (fun i C => ci <- vget c i ;; cn <- vget c n ;;
                vset C (i [+] n [*] (n [-] 1))%int (opp ci / cn)%D) C.

(** What a [dgeev] call leaves in the three vectors handed to it. *)
Definition roots_store (o : dgeev_out) (s : vec double * vec double * vec double)
    : result (vec double * vec double * vec double) :=
  let '(C, r, valI) := s in
  C <- vstore C (ge_Aout o) ;;
  r <- vstore r (ge_WR o) ;;
  valI <- vstore valI (ge_WI o) ;;
  Ok (C, r, valI).

(** [findPolyRoots] on vectors, lines 133-203. The address [&v[0]] of
    a vector is formed without an access. *)
Definition findPolyRoots (c : vec double) (n : Z) (r : vec double) : result (vec double) :=
  C <- companion c n ;;
  valI <- valloc n zero ;;
  let q := dgeev (roots_call n C (-1)) in
  '(C, r, valI) <- roots_store q (C, r, valI) ;;
  let tmpwork := ge_WORK1 q in
  let LWORK := to_int tmpwork in
  work <- valloc LWORK zero ;;
  let o := dgeev (roots_call n C LWORK) in
  '(C, r, valI) <- roots_store o (C, r, valI) ;;
  Ok r.

(** The log-weight of lines 372-373, with [h] the value of
    [hermitePoly] at the node [x[i]] and the order [n - 1]. *)
Definition direct_logweight (n : Z) (h : double) : double :=
  let log2 := log two in
  let logsqrtpi := (half * log M_PI)%D in
  ((of_Z n - one) * log2 + lgamma (of_Z (n [+] 1)%int) + logsqrtpi
   - two * log (of_Z n) - two * log (abs h))%D.

(** [gaussHermiteDataDirect], lines 347-378. *)
Definition gaussHermiteDataDirect (n : Z) (x w : vec double)
    : result (Z * vec double * vec double) :=
  coef <- valloc (n [+] 1)%int zero ;;
  coef <- hermitePolyCoef n coef ;;
  x <- findPolyRoots coef n x ;;
  w <- for_range 0 n
         (fun i w =>
            xi <- vget x i ;;
            h <- hermitePoly xi (n [-] 1)%int ;;
            w <- vset w i (direct_logweight n h) ;;
            lw <- vget w i ;;
            vset w i (exp lw)) w ;;
  Ok (0, x, w).

(** [gaussHermiteDataGolubWelsch], lines 380-400. *)
Definition gaussHermiteDataGolubWelsch (n : Z) (x w : vec double)
    : result (Z * vec double * vec double) :=
  D <- valloc n zero ;;
  E <- valloc n zero ;;
  '(D, E) <- buildHermiteJacobi n D E ;;
  let mu0 := sqrt M_PI in
  '(x, w) <- quadInfoGolubWelsch n D E mu0 x w ;;
  Ok (0, x, w).

(** [gaussHermiteData], lines 402-416: the list [(x, w)]. *)
Definition gaussHermiteData (nR : vec Z) : result (vec double * vec double) :=
  n <- vget nR 0 ;;
  x <- valloc n zero ;;
  w <- valloc n zero ;;
  '(_, x, w) <- gaussHermiteDataGolubWelsch n x w ;;
  Ok (x, w).

End Program.

(** ** The host-facing wrappers *)

(** The vectors of doubles that live at an address: R numeric vectors and
    [std::vector<double>] objects. Two names for one address share the
    object; a copy lives at a fresh address. *)
Definition store : Type := list (vec double).
Definition addr : Type := nat.

Definition salloc (v : vec double) (s : store) : addr * store :=
  (length s, s ++ [v]).

Definition sread (a : addr) (s : store) : result (vec double) :=
  match nth_error s a with
  | Some v => Ok v
  | None => Undefined
  end.

Definition swrite (a : addr) (v : vec double) (s : store) : result store :=
  if (a <? length s)%nat then Ok (list_upd s a v) else Undefined.

(** [Rcpp::NumericVector v(n)]: a fresh R vector of [n] zeros; R refuses a
    negative length. *)
Definition NumericVector_new (n : Z) (s : store) : result (addr * store) :=
  v <- valloc n zero ;; Ok (salloc v s).

(** [Rcpp::as<std::vector<double> >(v)]: a copy of the vector at [a]. *)
Definition as_vector (a : addr) (s : store) : result (addr * store) :=
  v <- sread a s ;; Ok (salloc v s).

(** [hermitePolyCoef(n, &c)] with [c] the vector at address [c]. *)
Definition hermitePolyCoef_at (n : Z) (c : addr) (s : store) : result store :=
  v <- sread c s ;;
  v' <- hermitePolyCoef n v ;;
  swrite c v' s.

(** [hermitePolyCoef(SEXP)], lines 269-283: the address of the vector it
    returns, and the store. *)
Definition hermitePolyCoef_SEXP (nR : vec Z) (s : store) : result (addr * store) :=
  n <- vget nR 0 ;;
  '(coef, s) <- NumericVector_new (n [+] 1)%int s ;;
  '(c, s) <- as_vector coef s ;;
  s <- hermitePolyCoef_at n c s ;;
  Ok (coef, s).

Section Wrappers.

Context {lapack : Lapack}.

(** [findPolyRoots(c, n, &r)] with [r] the vector at address [r]. *)
Definition findPolyRoots_at (c : vec double) (n : Z) (r : addr) (s : store)
  : result store :=
  v <- sread r s ;;
  v' <- findPolyRoots c n v ;;
  swrite r v' s.

(** [findPolyRoots(SEXP)], lines 205-220. [c] names the vector at [cR];
    the first argument of the inner call is a temporary copy of it. *)
Definition findPolyRoots_SEXP (cR : addr) (s : store) : result (addr * store) :=
  c <- sread cR s ;;
  let n := swrap 32 (Z.of_nat (length c)) in
  '(roots, s) <- NumericVector_new (n [-] 1)%int s ;;
  '(r, s) <- as_vector roots s ;;
  '(tmp, s) <- as_vector cR s ;;
  cv <- sread tmp s ;;
  s <- findPolyRoots_at cv (n [-] 1)%int r s ;;
  Ok (roots, s).

End Wrappers.

(** * Definitions used in the statements *)

Fixpoint zseq (lo : Z) (k : nat) : list Z :=
  match k with
  | O => []
  | S k' => lo :: zseq (lo + 1) k'
  end.

(** The entry [E[i]] of line 36. *)
Definition jacobi_offdiag (i : Z) : double := sqrt ((of_Z i + one) / two)%D.

(** The recurrence of the specification over the integers: row [i] from
    rows [i-2] ([a]) and [i-1] ([b]); an entry beyond the end of a row is
    zero. *)
Definition Hermite_next (i : Z) (a b : list Z) : list Z :=
  map (fun j => if j =? 0 then -2 * (i - 1) * nth 0 a 0
                else 2 * nth (Z.to_nat (j - 1)) b 0 - 2 * (i - 1) * nth (Z.to_nat j) a 0)
      (zseq 0 (Z.to_nat (i + 1))).

(** Rows [i] and [i+1], from the bases [H_0 = [1]] and [H_1 = [0, 2]]. *)
Fixpoint Hermite_rows (i : nat) : list Z * list Z :=
  match i with
  | O => ([1], [0; 2])
  | S i' => let '(a, b) := Hermite_rows i' in (b, Hermite_next (Z.of_nat i' + 2) a b)
  end.

Definition Hermite_coefficients (n : Z) : list Z := fst (Hermite_rows (Z.to_nat n)).

(** The outcomes of a list of computations run from left to right. *)
Fixpoint sequence {A} (l : list (result A)) : result (list A) :=
  match l with
  | [] => Ok []
  | m :: l' => a <- m ;; v <- sequence l' ;; Ok (a :: v)
  end.

(** A shift record with a mantissa that is not negative. *)
Definition nonneg (mrs : shr_record) : Prop := 0 <= shr_m mrs.

(** The pair the engine forms from the eigenpair of index [i]: the
    eigenvalue [W[i]] and the weight [mu0 * Z[i * n] * Z[i * n]]. *)
Definition quad_candidate (n : Z) (mu0 : double) (W Zv : vec double) (i : Z)
  : double * double :=
  let z := nth (Z.to_nat (i * n)) Zv zero in
  (nth (Z.to_nat i) W zero, (mu0 * z * z)%D).

(** The test of line 119, negated: the pair is kept. *)
Definition quad_keep (p : double * double) : bool := negb (ltb (snd p) (sqrt epsilon)).

Definition quad_kept (n : Z) (mu0 : double) (W Zv : vec double) (k : nat)
  : list (double * double) :=
  filter quad_keep (map (quad_candidate n mu0 W Zv) (zseq 0 k)).

(** What holds of the state after [i] turns of the loop of lines 117-125,
    for [M] eigenpairs in [W] and [Zv]. *)
Definition prune_inv (n : Z) (mu0 : double) (W Zv : vec double) (M : Z)
    (i : Z) (s : vec double * vec double * Z) : Prop :=
  let '(x, w, numPoints) := s in
  let kept := quad_kept n mu0 W Zv (Z.to_nat i) in
  Z.of_nat (length x) = M /\ Z.of_nat (length w) = M
  /\ numPoints = Z.of_nat (length kept)
  /\ firstn (length kept) x = map fst kept
  /\ firstn (length kept) w = map snd kept.

(** The vectors [D] and [E] that [gaussHermiteDataGolubWelsch] hands to
    [quadInfoGolubWelsch]: [E] was allocated with [n] elements and
    [buildHermiteJacobi] stores the first [n - 1]. *)
Definition jacobi_D (n : Z) : vec double := repeat zero (Z.to_nat n).
Definition jacobi_E (n : Z) : vec double :=
  map jacobi_offdiag (zseq 0 (Z.to_nat (n - 1))) ++ [zero].

(** Sample parameters: a libm whose [pow] answers 4, and an exact
    symmetric eigensolver for 1x1 matrices. *)
Definition libm_sample : Libm :=
  {| log := fun d => d; exp := fun d => d; lgamma := fun d => d;
   pow := fun _ _ => four; log2 := fun _ => zero |}.

Definition dstevx_1x1 (a : dstevx_in) : dstevx_out :=
  {| sx_M := 1; sx_W := firstn 1 (sx_D a); sx_Z := [one]; sx_INFO := 0 |}.

(** An eigensolver that is exact on triangular matrices: it answers the
    diagonal. *)
Definition dgeev_triangular (a : dgeev_in) : dgeev_out :=
  if ge_LWORK a =? -1 then
  {| ge_Aout := []; ge_WR := []; ge_WI := []; ge_WORK1 := of_Z 3; ge_INFO := 0 |}
  else
  {| ge_Aout := ge_A a;
     ge_WR := map (fun i => nth (Z.to_nat (i + ge_LDA a * i)) (ge_A a) zero)
                  (zseq 0 (Z.to_nat (ge_N a)));
     ge_WI := repeat zero (Z.to_nat (ge_N a));
     ge_WORK1 := of_Z 3; ge_INFO := 0 |}.

Definition lapack_sample : Lapack := {| dstevx := dstevx_1x1; dgeev := dgeev_triangular |}.

(** The entry in row [row] and column [col] of the matrix that
    [findPolyRoots] builds from the coefficients [c] of a polynomial of
    degree [n]. *)
Definition companion_entry (c : vec double) (n row col : Z) : double :=
  if col =? n - 1 then (opp (nth (Z.to_nat row) c zero) / nth (Z.to_nat n) c zero)%D
  else if row =? col + 1 then one
  else zero.

(** What the documentation of [dgeev] promises of a call: a workspace query
    ([LWORK = -1]) stores only the workspace size, which is not negative;
    a computation stores [N] real parts and [N] imaginary parts and stays
    inside the matrix. *)
Definition dgeev_conforms {lapack : Lapack} : Prop :=
  forall a : dgeev_in,
  0 <= ge_N a ->
  let o := dgeev a in
  if ge_LWORK a =? -1 then
    ge_Aout o = [] /\ ge_WR o = [] /\ ge_WI o = [] /\ 0 <= to_int (ge_WORK1 o)
  else
    (length (ge_Aout o) <= length (ge_A a))%nat
    /\ Z.of_nat (length (ge_WR o)) = ge_N a
    /\ Z.of_nat (length (ge_WI o)) = ge_N a.

(** The value of [hermitePoly] where it returns. *)
Definition hermitePoly_value (x : double) (n : Z) : double :=
  match hermitePoly x n with
  | Ok h => h
  | _ => zero
  end.

(** A caller is told of a failure by an exception or by a status that is
    not zero. *)
Definition signals_error (r : result (Z * vec double * vec double)) : Prop :=
  match r with
  | Ok (status, _, _) => status <> 0
  | Throw => True
  | Undefined => False
  end.

(** Eigensolvers that answer as the sample ones do and report a failure. *)
Definition dstevx_failing (a : dstevx_in) : dstevx_out :=
  {| sx_M := sx_M (dstevx_1x1 a); sx_W := sx_W (dstevx_1x1 a);
   sx_Z := sx_Z (dstevx_1x1 a); sx_INFO := 1 |}.

Definition dgeev_failing (a : dgeev_in) : dgeev_out :=
  {| ge_Aout := ge_Aout (dgeev_triangular a); ge_WR := ge_WR (dgeev_triangular a);
   ge_WI := ge_WI (dgeev_triangular a); ge_WORK1 := ge_WORK1 (dgeev_triangular a);
   ge_INFO := 1 |}.

Definition lapack_failing : Lapack := {| dstevx := dstevx_failing; dgeev := dgeev_failing |}.

(** Two LAPACK libraries that store the same values and differ at most in
    [INFO]. *)
Definition same_but_INFO (l1 l2 : Lapack) : Prop :=
  (forall a, sx_M (@dstevx l1 a) = sx_M (@dstevx l2 a)
           /\ sx_W (@dstevx l1 a) = sx_W (@dstevx l2 a)
           /\ sx_Z (@dstevx l1 a) = sx_Z (@dstevx l2 a))
  /\ (forall a, ge_Aout (@dgeev l1 a) = ge_Aout (@dgeev l2 a)
              /\ ge_WR (@dgeev l1 a) = ge_WR (@dgeev l2 a)
              /\ ge_WI (@dgeev l1 a) = ge_WI (@dgeev l2 a)
              /\ ge_WORK1 (@dgeev l1 a) = ge_WORK1 (@dgeev l2 a)).

(** An eigensolver that reports 1000 eigenvalues of a 1x1 matrix and
    stores 1000 eigenvector entries. *)
Definition dstevx_overfull (a : dstevx_in) : dstevx_out :=
  {| sx_M := 1000; sx_W := firstn 1 (sx_D a); sx_Z := repeat one 1000; sx_INFO := 0 |}.

Definition lapack_overfull : Lapack :=
  {| dstevx := dstevx_overfull; dgeev := dgeev_triangular |}.

(** A libm that answers at [n = 2^21] what the GNU libm answers:
    [log2(2097152) = 21] and [pow(2, 12.364683344408305)
    = 5274.005441610002]. *)
Definition libm_recorded : Libm :=
  {| log := fun d => d; exp := fun d => d; lgamma := fun d => d;
   pow := fun _ _ => lit 5798830308004095 (-40); log2 := fun _ => of_Z 21 |}.

(** ** Definitions of the further properties *)

(** Two outcomes of the same kind whose values are related. *)
Definition outcome_rel {A} (R : A -> A -> Prop) (r1 r2 : result A) : Prop :=
  match r1, r2 with
  | Ok a, Ok b => R a b
  | Throw, Throw => True
  | Undefined, Undefined => True
  | _, _ => False
  end.

(** Two states of the loop of lines 117-125 that agree on the count and on
    the elements stored so far. *)
Definition prune_rel (s1 s2 : vec double * vec double * Z) : Prop :=
  let '(x1, w1, p1) := s1 in
  let '(x2, w2, p2) := s2 in
  p1 = p2 /\ 0 <= p1
  /\ length x1 = length x2 /\ length w1 = length w2
  /\ firstn (Z.to_nat p1) x1 = firstn (Z.to_nat p1) x2
  /\ firstn (Z.to_nat p1) w1 = firstn (Z.to_nat p1) w2.

(** A solver double that reports [m] eigenvalues and stores nothing. *)
Definition dstevx_reporting (m : Z) (_ : dstevx_in) : dstevx_out :=
  {| sx_M := m; sx_W := []; sx_Z := []; sx_INFO := 0 |}.

Definition lapack_reporting (m : Z) : Lapack :=
  {| dstevx := dstevx_reporting m; dgeev := dgeev_triangular |}.

(** The test of X18 at one order, on the coefficients of the integer
    recurrence. *)
Definition direct_companion_check (n : Z) : bool :=
  (nth (Z.to_nat n) (Hermite_coefficients n) 0 =? 2 ^ n)
  && match companion (map of_Z (Hermite_coefficients n)) n with
     | Ok C => forallb is_finite C
     | _ => false
     end.

(** * Properties *)

(** ** Outcomes, vectors and loops *)

Section VecFacts.

Context {A : Type}.
Implicit Types (l v : vec A) (a : A) (k : nat) (i : Z).

Lemma list_upd_length l k a : length (list_upd l k a) = length l.
Proof.
  revert k; induction l as [|h t IH]; intros [|k]; simpl; auto.
Qed.

Lemma nth_error_list_upd_eq l k a :
  (k < length l)%nat -> nth_error (list_upd l k a) k = Some a.
Proof.
  revert k; induction l as [|h t IH]; intros [|k]; simpl; intros H;
    try lia; auto.
  apply IH; lia.
Qed.

Lemma nth_error_list_upd_ne l k k' a :
  k <> k' -> nth_error (list_upd l k a) k' = nth_error l k'.
Proof.
  revert k k'; induction l as [|h t IH]; intros [|k] [|k']; simpl; intros H;
    auto; try congruence.
Qed.

Lemma vset_Ok v i a :
  0 <= i < Z.of_nat (length v) -> vset v i a = Ok (list_upd v (Z.to_nat i) a).
Proof.
  intros [H0 H1]; unfold vset.
  apply Z.leb_le in H0; apply Z.ltb_lt in H1; rewrite H0, H1; reflexivity.
Qed.

Lemma vget_Ok v i a :
  0 <= i -> nth_error v (Z.to_nat i) = Some a -> vget v i = Ok a.
Proof.
  intros H0 H; unfold vget.
  apply Z.ltb_ge in H0; rewrite H0, H; reflexivity.
Qed.

Lemma vget_in_range v i :
  0 <= i < Z.of_nat (length v) -> exists a, vget v i = Ok a.
Proof.
  intros [H0 H1].
  destruct (nth_error v (Z.to_nat i)) as [a|] eqn:E.
  - exists a; apply vget_Ok; auto.
  - apply nth_error_None in E; lia.
Qed.

Lemma vget_list_upd_eq v i a :
  0 <= i < Z.of_nat (length v) -> vget (list_upd v (Z.to_nat i) a) i = Ok a.
Proof.
  intros H; apply vget_Ok; [lia|].
  apply nth_error_list_upd_eq; lia.
Qed.

Lemma vget_list_upd_ne v i j a :
  0 <= i -> 0 <= j -> i <> j -> vget (list_upd v (Z.to_nat i) a) j = vget v j.
Proof.
  intros Hi Hj Hne; unfold vget.
  rewrite nth_error_list_upd_ne by lia; reflexivity.
Qed.

Lemma valloc_Ok n a : 0 <= n -> valloc n a = Ok (repeat a (Z.to_nat n)).
Proof.
  intros H; unfold valloc; apply Z.ltb_ge in H; rewrite H; reflexivity.
Qed.

Lemma vget_repeat n a i :
  0 <= i < n -> vget (repeat a (Z.to_nat n)) i = Ok a.
Proof.
  intros H; apply vget_Ok; [lia|].
  apply nth_error_repeat; lia.
Qed.

End VecFacts.

Section LoopFacts.

Context {S : Type}.
Implicit Types (body : Z -> S -> result S) (s : S).

Lemma for_loop_inv (P : Z -> S -> Prop) body k :
  forall i s,
    P i s ->
    (forall j t, i <= j < i + Z.of_nat k -> P j t ->
                 exists t', body j t = Ok t' /\ P (j + 1) t') ->
    exists s', for_loop k i body s = Ok s' /\ P (i + Z.of_nat k) s'.
Proof.
  induction k as [|k IH]; intros i s HP Hstep.
  - exists s; simpl; rewrite Z.add_0_r; auto.
  - destruct (Hstep i s ltac:(lia) HP) as (t & Hb & Ht).
    destruct (IH (i + 1) t Ht) as (s' & Hl & Hs').
    + intros j u Hj; apply Hstep; lia.
    + exists s'; split.
      * simpl; rewrite Hb; exact Hl.
      * replace (i + Z.of_nat (Datatypes.S k)) with (i + 1 + Z.of_nat k) by lia.
        exact Hs'.
Qed.

Lemma for_range_inv (P : Z -> S -> Prop) lo hi body s :
  lo <= hi ->
  P lo s ->
  (forall j t, lo <= j < hi -> P j t ->
               exists t', body j t = Ok t' /\ P (j + 1) t') ->
  exists s', for_range lo hi body s = Ok s' /\ P hi s'.
Proof.
  intros Hle HP Hstep; unfold for_range.
  destruct (for_loop_inv P body (Z.to_nat (hi - lo)) lo s HP) as (s' & H1 & H2).
  - intros j t Hj; apply Hstep; lia.
  - exists s'; split; auto.
    replace (lo + Z.of_nat (Z.to_nat (hi - lo))) with hi in H2 by lia.
    exact H2.
Qed.

Lemma for_range_empty lo hi body s :
  hi <= lo -> for_range lo hi body s = Ok s.
Proof.
  intros H; unfold for_range.
  replace (Z.to_nat (hi - lo)) with O by lia; reflexivity.
Qed.

End LoopFacts.

(** ** Machine integers in range *)

Lemma swrap32_id z : INT_MIN <= z <= INT_MAX -> swrap 32 z = z.
Proof.
  unfold swrap, INT_MIN, INT_MAX; intros H.
  change (2 ^ (32 - 1)) with 2147483648; change (2 ^ 32) with 4294967296.
  rewrite Z.mod_small by lia; lia.
Qed.

Lemma uwrap32_id z : 0 <= z < 4294967296 -> uwrap 32 z = z.
Proof.
  unfold uwrap; intros H; change (2 ^ 32) with 4294967296.
  apply Z.mod_small; lia.
Qed.

Lemma uwrap32_range z : 0 <= uwrap 32 z < 4294967296.
Proof.
  unfold uwrap; change (2 ^ 32) with 4294967296; apply Z.mod_pos_bound; lia.
Qed.

Lemma int_add_id a b : INT_MIN <= a + b <= INT_MAX -> int_add a b = a + b.
Proof. apply swrap32_id. Qed.

Lemma int_sub_id a b : INT_MIN <= a - b <= INT_MAX -> int_sub a b = a - b.
Proof. apply swrap32_id. Qed.

Lemma int_mul_id a b : INT_MIN <= a * b <= INT_MAX -> int_mul a b = a * b.
Proof. apply swrap32_id. Qed.

Lemma uint_of_int_id a : 0 <= a <= INT_MAX -> uint_of_int a = a.
Proof. unfold INT_MAX; intros H; apply uwrap32_id; lia. Qed.

Lemma uint_add_id a b : 0 <= a + b < 4294967296 -> uint_add a b = a + b.
Proof. apply uwrap32_id. Qed.

Lemma uint_mul_id a b : 0 <= a * b < 4294967296 -> uint_mul a b = a * b.
Proof. apply uwrap32_id. Qed.

(** Rewrites the [int] operations of a goal whose operands stay in range. *)
Ltac int_norm :=
  repeat first
    [ rewrite int_add_id by (unfold INT_MIN, INT_MAX in *; nia)
    | rewrite int_sub_id by (unfold INT_MIN, INT_MAX in *; nia)
    | rewrite int_mul_id by (unfold INT_MIN, INT_MAX in *; nia) ].

(** ** Loops that fill a vector from its first element on *)

Lemma zseq_length lo k : length (zseq lo k) = k.
Proof. revert lo; induction k; simpl; intros; auto. Qed.

Lemma zseq_nth lo k j :
  (j < k)%nat -> nth_error (zseq lo k) j = Some (lo + Z.of_nat j).
Proof.
  revert lo j; induction k as [|k IH]; intros lo [|j] H; simpl; try lia.
  - f_equal; lia.
  - rewrite IH by lia; f_equal; lia.
Qed.

Lemma zseq_In lo k z : In z (zseq lo k) <-> lo <= z < lo + Z.of_nat k.
Proof.
  revert lo; induction k as [|k IH]; intros lo; simpl.
  - lia.
  - rewrite IH; lia.
Qed.

Lemma zseq_snoc lo k : zseq lo (S k) = zseq lo k ++ [lo + Z.of_nat k].
Proof.
  revert lo; induction k as [|k IH]; intros lo.
  - simpl; f_equal; lia.
  - change (zseq lo (S (S k))) with (lo :: zseq (lo + 1) (S k)).
    rewrite IH; simpl; do 3 f_equal; lia.
Qed.

Section Fill.

Context {A : Type}.

Lemma list_upd_app (pre rest : list A) (x a : A) :
  list_upd (pre ++ x :: rest) (length pre) a = pre ++ a :: rest.
Proof. induction pre; simpl; congruence. Qed.

Lemma for_loop_fill (body : Z -> vec A -> result (vec A)) (f : Z -> A) k :
  forall pre rest : list A,
    (k <= length rest)%nat ->
    (forall j v, Z.of_nat (length pre) <= j < Z.of_nat (length pre) + Z.of_nat k ->
                 body j v = vset v j (f j)) ->
    for_loop k (Z.of_nat (length pre)) body (pre ++ rest)
    = Ok (pre ++ map f (zseq (Z.of_nat (length pre)) k) ++ skipn k rest).
Proof.
  induction k as [|k IH]; intros pre rest Hk Hg.
  - reflexivity.
  - destruct rest as [|x rest]; [simpl in Hk; lia|].
    cbn [for_loop].
    rewrite Hg by lia.
    rewrite vset_Ok by (rewrite length_app; simpl; lia).
    rewrite Nat2Z.id, list_upd_app. cbn [bind].
    replace (pre ++ f (Z.of_nat (length pre)) :: rest)
      with ((pre ++ [f (Z.of_nat (length pre))]) ++ rest)
      by (rewrite <- app_assoc; reflexivity).
    replace (Z.of_nat (length pre) + 1)
      with (Z.of_nat (length (pre ++ [f (Z.of_nat (length pre))])))
      by (rewrite length_app; simpl; lia).
    rewrite IH.
    + rewrite <- app_assoc. cbn [map zseq skipn app].
      replace (Z.of_nat (length (pre ++ [f (Z.of_nat (length pre))])))
        with (Z.of_nat (length pre) + 1)
        by (rewrite length_app; simpl; lia).
      reflexivity.
    + simpl in Hk; lia.
    + intros j v Hj; apply Hg.
      rewrite length_app in Hj; simpl in Hj; lia.
Qed.

(** A loop that stores [f i] in [v[i]] for [i] in [0, n). *)
Lemma for_range_fill (body : Z -> vec A -> result (vec A)) (f : Z -> A) (v : vec A) n :
  0 <= n <= Z.of_nat (length v) ->
  (forall j u, 0 <= j < n -> body j u = vset u j (f j)) ->
  for_range 0 n body v
  = Ok (map f (zseq 0 (Z.to_nat n)) ++ skipn (Z.to_nat n) v).
Proof.
  intros Hn Hg; unfold for_range.
  rewrite Z.sub_0_r.
  apply (for_loop_fill body f (Z.to_nat n) [] v).
  - lia.
  - intros j u Hj; apply Hg.
    change (Z.of_nat (length (@nil A))) with 0 in Hj; lia.
Qed.

Lemma for_range_fill_set (f : Z -> A) (v : vec A) n :
  0 <= n <= Z.of_nat (length v) ->
  for_range 0 n (fun i v => vset v i (f i)) v
  = Ok (map f (zseq 0 (Z.to_nat n)) ++ skipn (Z.to_nat n) v).
Proof.
  intros Hn; apply for_range_fill; auto.
Qed.

Lemma map_const_zseq (a : A) lo k : map (fun _ => a) (zseq lo k) = repeat a k.
Proof. revert lo; induction k; simpl; intros; f_equal; auto. Qed.

Lemma skipn_repeat (a : A) k m : skipn k (repeat a m) = repeat a (m - k).
Proof.
  revert m; induction k as [|k IH]; intros [|m]; simpl; auto.
Qed.

(** Storing the initial value again leaves a fresh vector as it is. *)
Lemma for_range_fill_same (a : A) n :
  0 <= n ->
  for_range 0 n (fun i v => vset v i a) (repeat a (Z.to_nat n))
  = Ok (repeat a (Z.to_nat n)).
Proof.
  intros Hn.
  rewrite (for_range_fill_set (fun _ => a)) by (rewrite repeat_length; lia).
  rewrite map_const_zseq, skipn_repeat, Nat.sub_diag, app_nil_r; reflexivity.
Qed.

End Fill.

(** ** The Jacobi matrix (claim C8) *)

Lemma buildHermiteJacobi_spec (n : Z) (D E : vec double) :
  0 < n <= INT_MAX ->
  Z.of_nat (length D) = n ->
  n - 1 <= Z.of_nat (length E) ->
  buildHermiteJacobi n D E
  = Ok (repeat zero (Z.to_nat n),
        map jacobi_offdiag (zseq 0 (Z.to_nat (n - 1))) ++ skipn (Z.to_nat (n - 1)) E).
Proof.
  intros Hn HD HE; unfold buildHermiteJacobi.
  rewrite (for_range_fill_set (fun _ => zero)) by lia.
  rewrite map_const_zseq, skipn_all2 by lia.
  rewrite app_nil_r. cbn [bind].
  rewrite int_sub_id by (unfold INT_MIN, INT_MAX in *; lia).
  rewrite (for_range_fill_set jacobi_offdiag) by lia.
  reflexivity.
Qed.

(** ** The coefficient recursion returns *)

Lemma hermite_recurrence_total (n : Z) (work : vec Z) :
  2 <= n ->
  (n + 1) * (n + 1) <= INT_MAX ->
  Z.of_nat (length work) = (n + 1) * (n + 1) ->
  exists work', hermite_recurrence (n + 1) work = Ok work'
                /\ length work' = length work.
Proof.
  intros Hn Hmax Hlen; unfold hermite_recurrence.
  assert (Hint : INT_MAX = 2147483647) by reflexivity.
  rewrite vset_Ok by nia. cbn [bind].
  rewrite vset_Ok by (rewrite list_upd_length; nia). cbn [bind].
  int_norm.
  rewrite vset_Ok by (rewrite !list_upd_length; nia). cbn [bind].
  set (w0 := list_upd _ _ _).
  assert (Hw0 : length w0 = length work)
    by (unfold w0; rewrite !list_upd_length; reflexivity).
  clearbody w0.
  destruct (for_range_inv (fun _ w => length w = length work) 2 (n + 1)
              (fun i work =>
         a <- vget work (i [-] 2)%int ;;
         work <- vset work i (long_mul ((-2) [*] (i [-] 1))%int a) ;;
         for_range 1 (i [+] 1)%int
           (fun j work =>
              p <- vget work ((i [-] 1) [+] (j [-] 1) [*] (n + 1))%int ;;
              q <- vget work ((i [-] 2) [+] j [*] (n + 1))%int ;;
              vset work (i [+] j [*] (n + 1))%int
                (to_long (two * of_Z p - two * (of_Z i - one) * of_Z q)%D))
           work) w0) as (w' & Hw' & Hl'); [lia|exact Hw0| |eauto].
  intros i w Hi Hw.
  int_norm.
  destruct (vget_in_range w (i - 2)) as (a & Ha); [nia|].
  rewrite Ha. cbn [bind].
  rewrite vset_Ok by nia. cbn [bind].
  apply (for_range_inv (fun _ t => length t = length work));
    [lia|rewrite list_upd_length; exact Hw|].
  intros j t Hj Ht.
  assert (0 <= (j - 1) * (n + 1) <= (n - 1) * (n + 1)) by nia.
  assert (0 <= j * (n + 1) <= n * (n + 1)) by nia.
  int_norm.
  destruct (vget_in_range t (i - 1 + (j - 1) * (n + 1))) as (p & Hp); [nia|].
  destruct (vget_in_range t (i - 2 + j * (n + 1))) as (q & Hq); [nia|].
  rewrite Hp, Hq. cbn [bind].
  rewrite vset_Ok by nia.
  eexists; split; [reflexivity|].
  rewrite list_upd_length; exact Ht.
Qed.

Lemma hermitePolyCoef_total (n : Z) (c : vec double) :
  0 <= n ->
  (n + 1) * (n + 1) <= INT_MAX ->
  Z.of_nat (length c) = n + 1 ->
  exists c', hermitePolyCoef n c = Ok c' /\ Z.of_nat (length c') = n + 1.
Proof.
  intros Hn Hmax Hlen; unfold hermitePolyCoef.
  assert (Hint : INT_MAX = 2147483647) by reflexivity.
  int_norm.
  rewrite valloc_Ok by nia. cbn [bind].
  change (to_long zero) with 0.
  rewrite for_range_fill_same by nia. cbn [bind].
  destruct (n =? 0) eqn:E0; [|destruct (n =? 1) eqn:E1].
  - rewrite vset_Ok by lia.
    eexists; split; [reflexivity|]; rewrite list_upd_length; exact Hlen.
  - rewrite vset_Ok by lia. cbn [bind].
    rewrite vset_Ok by (rewrite list_upd_length; lia).
    eexists; split; [reflexivity|]; rewrite !list_upd_length; exact Hlen.
  - apply Z.eqb_neq in E0, E1.
    destruct (hermite_recurrence_total n (repeat 0 (Z.to_nat ((n + 1) * (n + 1)))))
      as (w & Hw & Hlw); [lia|lia|rewrite repeat_length; nia|].
    rewrite Hw. cbn [bind].
    rewrite repeat_length in Hlw.
    assert (Hidx : forall j, 0 <= j < n + 1 ->
                     exists v, vget w (n [+] j [*] (n + 1))%int = Ok v).
    { intros j Hj.
      assert (0 <= j * (n + 1) <= n * (n + 1)) by nia.
      int_norm. apply vget_in_range; nia. }
    destruct (for_range_inv (fun _ u => Z.of_nat (length u) = n + 1) 0 (n + 1)
                (fun j c => v <- vget w (n [+] j [*] (n + 1))%int ;; vset c j (of_Z v)) c)
      as (c' & Hc' & Hl'); [lia|exact Hlen| |eauto].
    intros j u Hj Hu.
    destruct (Hidx j Hj) as (v & Hv); rewrite Hv. cbn [bind].
    rewrite vset_Ok by lia.
    eexists; split; [reflexivity|]; rewrite list_upd_length; exact Hu.
Qed.

(** ** The Hermite coefficients (claim C6) *)

Lemma hermitePolyCoef_exact_nat (k : nat) (c : vec double) :
  (k <= 25)%nat ->
  length c = S k ->
  hermitePolyCoef (Z.of_nat k) c = Ok (map of_Z (Hermite_coefficients (Z.of_nat k))).
Proof.
  intros Hk Hc.
  do 26 (destruct k as [|k];
         [ do 27 (try (destruct c as [|? c]; [discriminate Hc|]));
           destruct c; [vm_compute; reflexivity|discriminate Hc] | ]).
  lia.
Qed.

(** C6, as amended. For every order [n] from 0 to 25 and every vector [c]
    of length [n + 1], [hermitePolyCoef] returns the row [n] of the integer
    recurrence with bases [H_0 = [1]] and [H_1 = [0, 2]], converted to
    [double]; the rows 0 to 4 are the closed forms [1], [0, 2],
    [-2, 0, 4], [0, -12, 0, 8] and [12, 0, -48, 0, 16]. *)
Theorem hermitePolyCoef_exact (n : Z) (c : vec double) :
  0 <= n <= 25 ->
  Z.of_nat (length c) = n + 1 ->
  hermitePolyCoef n c = Ok (map of_Z (Hermite_coefficients n))
  /\ Z.of_nat (length (Hermite_coefficients n)) = n + 1
  /\ Hermite_coefficients 0 = [1]
  /\ Hermite_coefficients 1 = [0; 2]
  /\ Hermite_coefficients 2 = [-2; 0; 4]
  /\ Hermite_coefficients 3 = [0; -12; 0; 8]
  /\ Hermite_coefficients 4 = [12; 0; -48; 0; 16].
Proof.
  intros Hn Hc.
  assert (E : hermitePolyCoef n c = Ok (map of_Z (Hermite_coefficients n))).
  { rewrite <- (Z2Nat.id n) by lia.
    apply hermitePolyCoef_exact_nat; lia. }
  split; [exact E|].
  split; [|repeat split; reflexivity].
  destruct (hermitePolyCoef_total n c) as (c' & Hc' & Hl);
    [lia|unfold INT_MAX; nia|exact Hc|].
  rewrite E in Hc'; inversion Hc'; subst c'.
  rewrite length_map in Hl; exact Hl.
Qed.

Lemma hermitePolyCoef_exact_witness :
  hermitePolyCoef 4 [zero; zero; zero; zero; zero]
  = Ok (map of_Z [12; 0; -48; 0; 16]).
Proof.
  destruct (hermitePolyCoef_exact 4 [zero; zero; zero; zero; zero]) as (E & _);
    [lia|reflexivity|].
  exact E.
Defined.

(** At order 26 the coefficient of [x^6] in [H_26] is 9878783586287616000,
    beyond the range of [long]: the vector [hermitePolyCoef] fills is not the
    row 26 of the integer recurrence. *)
Lemma hermitePolyCoef_26_inexact :
  LONG_MAX < nth 6 (Hermite_coefficients 26) 0
  /\ hermitePolyCoef 26 (repeat zero 27) <> Ok (map of_Z (Hermite_coefficients 26)).
Proof.
  split; [vm_compute; reflexivity|].
  intros H.
  assert (E : match hermitePolyCoef 26 (repeat zero 27) with
              | Ok v => nth 6 v zero
              | _ => zero
              end = of_Z (nth 6 (Hermite_coefficients 26) 0)).
  { rewrite H; vm_compute; reflexivity. }
  vm_compute in E; discriminate E.
Qed.

(** ** Vectorised evaluation (claim C9) *)

Lemma sequence_length {A} (l : list (result A)) (v : list A) :
  sequence l = Ok v -> length v = length l.
Proof.
  revert v; induction l as [|m l IH]; simpl; intros v H.
  - inversion H; reflexivity.
  - destruct m as [a| |]; simpl in H; try discriminate.
    destruct (sequence l) as [u| |]; simpl in H; try discriminate.
    inversion H; simpl; f_equal; auto.
Qed.

Lemma map_zseq_nth {A B} (F : Z -> B) (G : A -> B) (l : list A) :
  forall lo,
    (forall i a, nth_error l i = Some a -> F (lo + Z.of_nat i) = G a) ->
    map F (zseq lo (length l)) = map G l.
Proof.
  induction l as [|a l IH]; intros lo H; simpl; auto.
  f_equal.
  - rewrite <- (H O a eq_refl); f_equal; lia.
  - apply IH; intros i b Hi.
    rewrite <- (H (S i) b Hi); f_equal; lia.
Qed.

Lemma nth_error_combine {A B} (l : list A) (l' : list B) i a b :
  nth_error (combine l l') i = Some (a, b) ->
  nth_error l i = Some a /\ nth_error l' i = Some b.
Proof.
  revert l' i; induction l as [|x l IH]; intros [|y l'] [|i]; simpl;
    try discriminate.
  - intros H; inversion H; auto.
  - apply IH.
Qed.

Section FillM.

Context {A : Type}.

(** A loop that stores the outcome of [g i] in [v[i]] and stops at the
    first [g i] that does not return. *)
Lemma for_loop_fillM (body : Z -> vec A -> result (vec A)) (g : Z -> result A) k :
  forall pre rest : list A,
    (k <= length rest)%nat ->
    (forall j v, Z.of_nat (length pre) <= j < Z.of_nat (length pre) + Z.of_nat k ->
                 body j v = (a <- g j ;; vset v j a)) ->
    for_loop k (Z.of_nat (length pre)) body (pre ++ rest)
    = (vs <- sequence (map g (zseq (Z.of_nat (length pre)) k)) ;;
       Ok (pre ++ vs ++ skipn k rest)).
Proof.
  induction k as [|k IH]; intros pre rest Hk Hg.
  - reflexivity.
  - destruct rest as [|x rest]; [simpl in Hk; lia|].
    cbn [for_loop zseq map sequence].
    rewrite Hg by lia.
    destruct (g (Z.of_nat (length pre))) as [a| |]; cbn [bind]; auto.
    rewrite vset_Ok by (rewrite length_app; simpl; lia).
    rewrite Nat2Z.id, list_upd_app. cbn [bind].
    replace (pre ++ a :: rest) with ((pre ++ [a]) ++ rest)
      by (rewrite <- app_assoc; reflexivity).
    replace (Z.of_nat (length pre) + 1) with (Z.of_nat (length (pre ++ [a])))
      by (rewrite length_app; simpl; lia).
    rewrite IH.
    + destruct (sequence _) as [vs| |]; cbn [bind skipn]; auto.
      rewrite <- app_assoc; reflexivity.
    + simpl in Hk; lia.
    + intros j v Hj; apply Hg.
      rewrite length_app in Hj; simpl in Hj; lia.
Qed.

Lemma for_range_fillM (body : Z -> vec A -> result (vec A)) (g : Z -> result A)
    (a0 : A) (k : nat) :
  (forall j v, 0 <= j < Z.of_nat k -> body j v = (a <- g j ;; vset v j a)) ->
  for_range 0 (Z.of_nat k) body (repeat a0 k) = sequence (map g (zseq 0 k)).
Proof.
  intros Hg; unfold for_range.
  rewrite Z.sub_0_r, Nat2Z.id.
  pose proof (for_loop_fillM body g k [] (repeat a0 k)) as H.
  cbn [app length Z.of_nat] in H.
  rewrite H.
  - rewrite skipn_all2 by (rewrite repeat_length; lia).
    destruct (sequence _) as [vs| |]; cbn [bind]; auto.
    rewrite app_nil_r; reflexivity.
  - rewrite repeat_length; lia.
  - intros j v Hj; apply Hg; lia.
Qed.

End FillM.

Lemma hermitePoly_defined (x : double) (n : Z) :
  n <> INT_MAX -> exists h, hermitePoly x n = Ok h.
Proof.
  intros Hn; unfold hermitePoly.
  destruct (n =? 0); [eauto|].
  destruct (n =? 1); [eauto|].
  destruct (n =? INT_MAX) eqn:E; [apply Z.eqb_eq in E; contradiction|].
  destruct (hermitePoly_steps x (Z.to_nat (n - 1))) as ((a & b) & h); eauto.
Qed.

(** C9. [evalHermitePoly] evaluates pairwise when the two sequences have
    the same length; when [x] is longer it evaluates every [x[i]] at the
    order [n[0]]; otherwise it evaluates [x[0]] at every order [n[i]]. The
    result has the length of the longer sequence, and the call returns
    when no order is [INT_MAX] and neither sequence is empty without the
    other. *)
Theorem evalHermitePoly_broadcast (x : vec double) (n : vec Z) :
  (length x = length n ->
   evalHermitePoly x n
   = sequence (map (fun p => hermitePoly (fst p) (snd p)) (combine x n)))
  /\ (forall n0 n', n = n0 :: n' -> (length n < length x)%nat ->
      evalHermitePoly x n = sequence (map (fun xi => hermitePoly xi n0) x))
  /\ (forall x0 x', x = x0 :: x' -> (length x < length n)%nat ->
      evalHermitePoly x n = sequence (map (fun ni => hermitePoly x0 ni) n))
  /\ (forall h, evalHermitePoly x n = Ok h ->
      length h = Nat.max (length x) (length n))
  /\ ((x = [] <-> n = []) -> Forall (fun ni => ni <> INT_MAX) n ->
      exists h, evalHermitePoly x n = Ok h).
Proof.
  assert (Eq : length x = length n ->
               evalHermitePoly x n
               = sequence (map (fun p => hermitePoly (fst p) (snd p)) (combine x n))).
  { intros Hlen; unfold evalHermitePoly.
    rewrite Hlen, Z.eqb_refl.
    rewrite valloc_Ok, Nat2Z.id by lia. cbn [bind].
    rewrite (for_range_fillM _
               (fun i => xi <- vget x i ;; ni <- vget n i ;; hermitePoly xi ni)).
    - replace (length n) with (length (combine x n))
        by (rewrite length_combine; lia).
      f_equal; apply map_zseq_nth.
      intros i (a & b) Hi.
      apply nth_error_combine in Hi; destruct Hi as (Ha & Hb).
      rewrite Z.add_0_l.
      rewrite (vget_Ok x _ a), (vget_Ok n _ b) by (rewrite ?Nat2Z.id; auto; lia).
      reflexivity.
    - intros j v _.
      destruct (vget x j); cbn [bind]; auto.
      destruct (vget n j); cbn [bind]; auto. }
  assert (Ex : forall n0 n', n = n0 :: n' -> (length n < length x)%nat ->
               evalHermitePoly x n = sequence (map (fun xi => hermitePoly xi n0) x)).
  { intros n0 n' -> Hlen; unfold evalHermitePoly.
    destruct (Z.eqb_spec (Z.of_nat (length (n0 :: n'))) (Z.of_nat (length x)));
      [lia|].
    destruct (Z.gtb_spec (Z.of_nat (length x)) (Z.of_nat (length (n0 :: n'))));
      [|lia].
    rewrite valloc_Ok, Nat2Z.id by lia. cbn [bind].
    rewrite (for_range_fillM _ (fun i => xi <- vget x i ;; hermitePoly xi n0)).
    - f_equal; apply map_zseq_nth.
      intros i a Hi.
      rewrite Z.add_0_l.
      rewrite (vget_Ok x _ a) by (rewrite ?Nat2Z.id; auto; lia).
      reflexivity.
    - intros j v _.
      destruct (vget x j); cbn [bind]; auto. }
  assert (En : forall x0 x', x = x0 :: x' -> (length x < length n)%nat ->
               evalHermitePoly x n = sequence (map (fun ni => hermitePoly x0 ni) n)).
  { intros x0 x' -> Hlen; unfold evalHermitePoly.
    destruct (Z.eqb_spec (Z.of_nat (length n)) (Z.of_nat (length (x0 :: x'))));
      [lia|].
    destruct (Z.gtb_spec (Z.of_nat (length (x0 :: x'))) (Z.of_nat (length n)));
      [lia|].
    rewrite valloc_Ok, Nat2Z.id by lia. cbn [bind].
    rewrite (for_range_fillM _ (fun i => ni <- vget n i ;; hermitePoly x0 ni)).
    - f_equal; apply map_zseq_nth.
      intros i a Hi.
      rewrite Z.add_0_l.
      rewrite (vget_Ok n _ a) by (rewrite ?Nat2Z.id; auto; lia).
      reflexivity.
    - intros j v _.
      change (vget (x0 :: x') 0) with (Ok x0). cbn [bind].
      destruct (vget n j); cbn [bind]; auto. }
  split; [exact Eq|]. split; [exact Ex|]. split; [exact En|].
  assert (Hseq : forall {B} (f : B -> result double) (l : list B),
             Forall (fun b => exists h, f b = Ok h) l ->
             exists v, sequence (map f l) = Ok v).
  { intros B f l; induction 1 as [|b l (h & Hh) _ (v & Hv)]; simpl; eauto.
    rewrite Hh, Hv; simpl; eauto. }
  split.
  - intros h Hh.
    destruct (Nat.lt_trichotomy (length x) (length n)) as [Hlt|[He|Hgt]].
    + destruct x as [|x0 x'].
      * unfold evalHermitePoly in Hh.
        destruct n as [|n0 n']; [simpl in Hlt; lia|].
        exfalso; revert Hh.
        destruct (Z.eqb_spec (Z.of_nat (length (n0 :: n'))) (Z.of_nat (@length double [])));
          [simpl in *; lia|].
        destruct (Z.gtb_spec (Z.of_nat (@length double [])) (Z.of_nat (length (n0 :: n'))));
          [simpl in *; lia|].
        rewrite valloc_Ok by lia. cbn [bind].
        unfold for_range.
        replace (Z.to_nat (Z.of_nat (length (n0 :: n')) - 0)) with (S (length n'))
          by (simpl; lia).
        simpl; discriminate.
      * rewrite (En x0 x' eq_refl Hlt) in Hh.
        apply sequence_length in Hh; rewrite length_map in Hh; lia.
    + rewrite (Eq He) in Hh.
      apply sequence_length in Hh.
      rewrite length_map, length_combine in Hh; lia.
    + destruct n as [|n0 n'].
      * unfold evalHermitePoly in Hh.
        destruct x as [|x0 x']; [simpl in Hgt; lia|].
        exfalso; revert Hh.
        destruct (Z.eqb_spec (Z.of_nat (@length Z [])) (Z.of_nat (length (x0 :: x'))));
          [simpl in *; lia|].
        destruct (Z.gtb_spec (Z.of_nat (length (x0 :: x'))) (Z.of_nat (@length Z [])));
          [|simpl in *; lia].
        rewrite valloc_Ok by lia. cbn [bind].
        unfold for_range.
        replace (Z.to_nat (Z.of_nat (length (x0 :: x')) - 0)) with (S (length x'))
          by (simpl; lia).
        simpl; discriminate.
      * rewrite (Ex n0 n' eq_refl Hgt) in Hh.
        apply sequence_length in Hh; rewrite length_map in Hh; lia.
  - intros Hxn Hall.
    destruct (Nat.lt_trichotomy (length x) (length n)) as [Hlt|[He|Hgt]].
    + destruct x as [|x0 x'].
      { rewrite (proj1 Hxn eq_refl) in Hlt; simpl in Hlt; lia. }
      rewrite (En x0 x' eq_refl Hlt).
      apply Hseq.
      eapply Forall_impl; [|exact Hall].
      intros a Ha; apply hermitePoly_defined; exact Ha.
    + rewrite (Eq He).
      apply Hseq.
      apply Forall_forall; intros (a & b) Hin.
      apply in_combine_r in Hin.
      rewrite Forall_forall in Hall.
      apply hermitePoly_defined, Hall, Hin.
    + destruct n as [|n0 n'].
      { rewrite (proj2 Hxn eq_refl) in Hgt; simpl in Hgt; lia. }
      rewrite (Ex n0 n' eq_refl Hgt).
      apply Hseq.
      apply Forall_forall; intros a _.
      apply hermitePoly_defined.
      inversion Hall; auto.
Qed.

Lemma evalHermitePoly_broadcast_witness :
  evalHermitePoly [zero; one] [2; 3]
  = sequence [hermitePoly zero 2; hermitePoly one 3]
  /\ evalHermitePoly [zero; one; two] [2; 3]
     = sequence [hermitePoly zero 2; hermitePoly one 2; hermitePoly two 2]
  /\ evalHermitePoly [zero] [2; 3]
     = sequence [hermitePoly zero 2; hermitePoly zero 3].
Proof.
  split; [|split].
  - destruct (evalHermitePoly_broadcast [zero; one] [2; 3]) as (H & _).
    exact (H eq_refl).
  - destruct (evalHermitePoly_broadcast [zero; one; two] [2; 3]) as (_ & H & _).
    apply (H 2 [3] eq_refl); simpl; lia.
  - destruct (evalHermitePoly_broadcast [zero] [2; 3]) as (_ & _ & H & _).
    apply (H zero [] eq_refl); simpl; lia.
Defined.

(** ** Doubles: comparisons and products that are numbers *)

Lemma SFcompare_antisym (a b : double) (c : comparison) :
  SFcompare a b = Some c -> SFcompare b a = Some (CompOpp c).
Proof.
  destruct a as [sa|sa| |sa ma ea], b as [sb|sb| |sb mb eb]; simpl;
    try discriminate;
    try (destruct sa; intros H; inversion H; reflexivity);
    try (destruct sb; intros H; inversion H; reflexivity);
    try (destruct sa, sb; intros H; inversion H; reflexivity);
    try (intros H; inversion H; reflexivity).
  intros H; inversion H; subst c; clear H.
  rewrite (Z.compare_antisym ea eb).
  destruct sa, sb; try reflexivity;
    destruct (ea ?= eb); simpl; try reflexivity;
    rewrite (Pos.compare_cont_antisym ma mb Eq); reflexivity.
Qed.

Lemma ltb_false_leb (a b : double) :
  is_nan a = false -> is_nan b = false -> ltb a b = false -> leb b a = true.
Proof.
  unfold ltb, leb, SFltb, SFleb; intros Ha Hb H.
  destruct (SFcompare a b) as [c|] eqn:E.
  - rewrite (SFcompare_antisym a b c E).
    destruct c; simpl; auto; discriminate.
  - destruct a, b; simpl in *; try discriminate;
      repeat match goal with s : bool |- _ => destruct s end; discriminate.
Qed.

Section RoundingFacts.

Lemma shr_1_nonneg mrs : nonneg mrs -> nonneg (shr_1 mrs).
Proof.
  unfold nonneg; destruct mrs as [m r s]; destruct m as [|[p|p|]|p]; simpl; lia.
Qed.

Lemma iter_pos_nonneg p : forall mrs, nonneg mrs -> nonneg (iter_pos shr_1 p mrs).
Proof.
  induction p as [p IH|p IH|]; simpl; intros mrs H; auto using shr_1_nonneg.
Qed.

Lemma shr_fexp_nonneg m e l :
  0 <= m -> nonneg (fst (shr_fexp prec emax m e l)).
Proof.
  intros Hm; unfold shr_fexp, shr.
  assert (H0 : nonneg (shr_record_of_loc m l))
    by (destruct l as [|[| |]]; simpl; exact Hm).
  destruct (fexp prec emax (Zdigits2 m + e) - e); simpl; auto.
  apply iter_pos_nonneg; exact H0.
Qed.

Lemma round_nearest_even_nonneg m l : 0 <= m -> 0 <= round_nearest_even m l.
Proof.
  intros Hm; destruct l as [|[| |]]; simpl; try lia.
  destruct (Z.even m); lia.
Qed.

(** Rounding a non-negative mantissa never gives a NaN. *)
Lemma binary_round_aux_not_nan sx mx ex lx :
  0 <= mx -> is_nan (binary_round_aux prec emax sx mx ex lx) = false.
Proof.
  intros Hm; unfold binary_round_aux.
  pose proof (shr_fexp_nonneg mx ex lx Hm) as H1.
  destruct (shr_fexp prec emax mx ex lx) as (mrs' & e'); simpl in H1.
  pose proof (shr_fexp_nonneg
                (round_nearest_even (shr_m mrs') (loc_of_shr_record mrs')) e' loc_Exact
                (round_nearest_even_nonneg _ _ H1)) as H2.
  destruct (shr_fexp prec emax _ e' loc_Exact) as (mrs'' & e''); simpl in H2.
  unfold nonneg in H2.
  destruct (shr_m mrs'') as [|m|m]; try reflexivity; try lia.
  destruct (e'' <=? emax - prec); reflexivity.
Qed.

End RoundingFacts.

Lemma mul_finite_not_nan (a b : double) :
  is_nan a = false -> is_finite b = true ->
  (is_zero b = true -> is_finite a = true) ->
  is_nan (a * b)%D = false.
Proof.
  destruct a as [sa|sa| |sa ma ea], b as [sb|sb| |sb mb eb]; simpl;
    intros Ha Hb Hz; try discriminate; try reflexivity.
  - specialize (Hz eq_refl); discriminate.
  - apply binary_round_aux_not_nan; lia.
Qed.

(** The weight of line 118 is a number when the eigenvector entry is finite. *)
Lemma weight_not_nan (mu0 z : double) :
  is_finite mu0 = true -> is_finite z = true -> is_nan (mu0 * z * z)%D = false.
Proof.
  intros Hm Hz.
  apply mul_finite_not_nan; auto.
  - apply mul_finite_not_nan; auto.
    destruct mu0; simpl in *; auto; discriminate.
  - intros Hzero.
    destruct z; simpl in Hzero; try discriminate.
    destruct mu0; simpl in *; auto; discriminate.
Qed.

(** ** The pruning loop of the Golub-Welsch engine (claim C1) *)

Lemma firstn_list_upd_snoc {A} (l : list A) (k : nat) (a : A) :
  (k < length l)%nat -> firstn (S k) (list_upd l k a) = firstn k l ++ [a].
Proof.
  revert k; induction l as [|h t IH]; intros [|k] H; simpl in *; try lia.
  - reflexivity.
  - f_equal; apply IH; lia.
Qed.

Lemma combine_fst_snd {A B} (l : list (A * B)) :
  combine (map fst l) (map snd l) = l.
Proof. induction l as [|(a & b) l IH]; simpl; congruence. Qed.

Lemma vget_nth {A} (v : vec A) (i : Z) (d : A) :
  0 <= i < Z.of_nat (length v) -> vget v i = Ok (nth (Z.to_nat i) v d).
Proof.
  intros H; apply vget_Ok; [lia|].
  apply nth_error_nth'; lia.
Qed.

Lemma vresize_Ok {A} (v : vec A) (n : Z) (a : A) :
  0 <= n ->
  vresize v n a = Ok (firstn (Z.to_nat n) v ++ repeat a (Z.to_nat n - length v)).
Proof.
  intros H; unfold vresize; apply Z.ltb_ge in H; rewrite H; reflexivity.
Qed.

Lemma vresize_shrink {A} (v : vec A) (n : Z) (a : A) :
  0 <= n <= Z.of_nat (length v) -> vresize v n a = Ok (firstn (Z.to_nat n) v).
Proof.
  intros H; rewrite vresize_Ok by lia.
  replace (Z.to_nat n - length v)%nat with O by lia.
  simpl; rewrite app_nil_r; reflexivity.
Qed.

Section Prune.

Context (n : Z) (mu0 : double) (W Zv : vec double) (M : Z).
Hypothesis Hn : 0 < n <= INT_MAX.
Hypothesis HM : 0 <= M <= n.
Hypothesis HW : M <= Z.of_nat (length W).
Hypothesis HZ : M * n <= Z.of_nat (length Zv).
Hypothesis HZcap : Z.of_nat (length Zv) < 4294967296.

Lemma quad_kept_length (k : nat) : (length (quad_kept n mu0 W Zv k) <= k)%nat.
Proof.
  unfold quad_kept.
  etransitivity; [apply filter_length_le|].
  rewrite length_map, zseq_length; lia.
Qed.

Lemma quad_kept_succ (k : nat) :
  quad_kept n mu0 W Zv (S k)
  = quad_kept n mu0 W Zv k
    ++ (if quad_keep (quad_candidate n mu0 W Zv (Z.of_nat k))
        then [quad_candidate n mu0 W Zv (Z.of_nat k)] else []).
Proof.
  unfold quad_kept.
  rewrite zseq_snoc, map_app, filter_app; simpl.
  reflexivity.
Qed.

Lemma quad_prune_step_inv (i : Z) (s : vec double * vec double * Z) :
  0 <= i < M -> prune_inv n mu0 W Zv M i s ->
  exists s', quad_prune_step n mu0 W Zv i s = Ok s' /\ prune_inv n mu0 W Zv M (i + 1) s'.
Proof.
  intros Hi Hs; destruct s as ((x & w) & numPoints).
  destruct Hs as (Hx & Hw & Hnp & Hfx & Hfw).
  pose proof Hn as Hn'; unfold INT_MAX in Hn'.
  unfold quad_prune_step.
  rewrite uint_of_int_id by (unfold INT_MAX; lia).
  rewrite uint_mul_id by nia.
  rewrite (vget_nth Zv (i * n) zero) by nia. cbn [bind].
  unfold prune_inv.
  replace (Z.to_nat (i + 1)) with (S (Z.to_nat i)) by lia.
  rewrite quad_kept_succ.
  rewrite Z2Nat.id by lia.
  pose proof (quad_kept_length (Z.to_nat i)) as Hle.
  set (kept := quad_kept n mu0 W Zv (Z.to_nat i)) in *.
  assert (Hk : quad_keep (quad_candidate n mu0 W Zv i)
               = negb (ltb (mu0 * nth (Z.to_nat (i * n)) Zv zero
                            * nth (Z.to_nat (i * n)) Zv zero)%D (sqrt epsilon)))
    by reflexivity.
  rewrite Hk; clear Hk.
  destruct (ltb _ (sqrt epsilon)) eqn:Elt; cbn [negb].
  - eexists; split; [reflexivity|].
    rewrite app_nil_r; auto.
  - rewrite (vget_nth W i zero) by lia. cbn [bind].
    rewrite vset_Ok by lia. cbn [bind].
    rewrite vset_Ok by lia. cbn [bind].
    eexists; split; [reflexivity|].
    cbv beta iota zeta.
    rewrite !list_upd_length, length_app, !map_app.
    cbn [length map fst snd].
    rewrite uint_add_id by lia.
    rewrite Hnp, Nat2Z.id.
    replace (length kept + 1)%nat with (S (length kept)) by lia.
    rewrite !firstn_list_upd_snoc by lia.
    rewrite Hfx, Hfw.
    unfold quad_candidate; cbn [fst snd].
    repeat split; auto; lia.
Qed.

Lemma quad_prune_loop (x w : vec double) :
  Z.of_nat (length x) = M -> Z.of_nat (length w) = M ->
  exists x' w',
    for_range 0 (uint_of_int M) (quad_prune_step n mu0 W Zv) (x, w, 0)
    = Ok (x', w', Z.of_nat (length (quad_kept n mu0 W Zv (Z.to_nat M))))
    /\ firstn (length (quad_kept n mu0 W Zv (Z.to_nat M))) x'
       = map fst (quad_kept n mu0 W Zv (Z.to_nat M))
    /\ firstn (length (quad_kept n mu0 W Zv (Z.to_nat M))) w'
       = map snd (quad_kept n mu0 W Zv (Z.to_nat M))
    /\ Z.of_nat (length x') = M /\ Z.of_nat (length w') = M.
Proof.
  intros Hx Hw.
  pose proof Hn as Hn'; unfold INT_MAX in Hn'.
  rewrite uint_of_int_id by (unfold INT_MAX; lia).
  destruct (for_range_inv (prune_inv n mu0 W Zv M) 0 M (quad_prune_step n mu0 W Zv) (x, w, 0))
    as (((x' & w') & np) & Hl & Hinv).
  - lia.
  - simpl; auto.
  - intros j t Hj Ht; apply quad_prune_step_inv; auto.
  - destruct Hinv as (Hx' & Hw' & Hnp & Hfx & Hfw).
    exists x', w'; subst np; auto.
Qed.

End Prune.

Lemma quad_kept_store (n : Z) (mu0 : double) (Wo W1 Zo Z1 : vec double) (k : nat) :
  0 < n ->
  (k <= length Wo)%nat -> Z.of_nat k * n <= Z.of_nat (length Zo) ->
  quad_kept n mu0 (Wo ++ W1) (Zo ++ Z1) k = quad_kept n mu0 Wo Zo k.
Proof.
  intros Hn HW HZ; unfold quad_kept.
  f_equal; apply map_ext_in; intros i Hi.
  apply zseq_In in Hi.
  unfold quad_candidate.
  rewrite !app_nth1 by nia.
  reflexivity.
Qed.

Lemma vstore_Ok {A} (v out : vec A) :
  (length out <= length v)%nat -> vstore v out = Ok (out ++ skipn (length out) v).
Proof.
  intros H; unfold vstore.
  apply Nat.leb_le in H; rewrite H; reflexivity.
Qed.

Section GolubWelsch.

Context {libm : Libm} {lapack : Lapack}.

Lemma quad_setup_Ok (n : Z) :
  0 < n -> 5 * n <= INT_MAX ->
  quad_setup n
  = Ok {| qb_Mmax := uint_add (Mmax_predicted n) 100;
          qb_W := repeat zero (Z.to_nat n);
          qb_Z := repeat zero
                    (Z.to_nat (uint_mul (uint_add (Mmax_predicted n) 100) (uint_of_int n)));
          qb_WORK := repeat zero (Z.to_nat (5 * n));
          qb_IWORK := repeat 0 (Z.to_nat (5 * n));
          qb_IFAIL := repeat 0 (Z.to_nat n) |}.
Proof.
  intros Hn H5; unfold quad_setup.
  rewrite int_mul_id by (unfold INT_MIN, INT_MAX in *; lia).
  rewrite !valloc_Ok; try lia; [reflexivity|].
  apply uwrap32_range.
Qed.

Lemma quadInfoGolubWelsch_spec (n : Z) (D E : vec double) (mu0 : double)
    (x w : vec double) :
  let o := dstevx (quad_call n D E) in
  let kept := quad_kept n mu0 (sx_W o) (sx_Z o) (Z.to_nat (sx_M o)) in
  0 < n -> 5 * n <= INT_MAX ->
  0 <= sx_M o <= n ->
  sx_M o <= Z.of_nat (length (sx_W o)) <= n ->
  sx_M o * n <= Z.of_nat (length (sx_Z o))
             <= uint_mul (uint_add (Mmax_predicted n) 100) (uint_of_int n) ->
  quadInfoGolubWelsch n D E mu0 x w = Ok (map fst kept, map snd kept).
Proof.
  intros o kept Hn H5 HM HW HZ.
  assert (Hint : INT_MAX = 2147483647) by reflexivity.
  unfold quadInfoGolubWelsch.
  rewrite quad_setup_Ok by assumption. cbn [bind qb_W qb_Z].
  fold o.
  pose proof (uwrap32_range (uint_add (Mmax_predicted n) 100 * uint_of_int n)) as Hcap.
  fold (uint_mul (uint_add (Mmax_predicted n) 100) (uint_of_int n)) in Hcap.
  rewrite !vstore_Ok by (rewrite repeat_length; lia). cbn [bind].
  rewrite !vresize_Ok by lia. cbn [bind].
  set (W' := sx_W o ++ _). set (Z' := sx_Z o ++ _).
  set (x0 := firstn _ x ++ _). set (w0 := firstn _ w ++ _).
  assert (Hx0 : Z.of_nat (length x0) = sx_M o)
    by (unfold x0; rewrite length_app, length_firstn, repeat_length; lia).
  assert (Hw0 : Z.of_nat (length w0) = sx_M o)
    by (unfold w0; rewrite length_app, length_firstn, repeat_length; lia).
  assert (HZ' : length Z' = Z.to_nat (uint_mul (uint_add (Mmax_predicted n) 100) (uint_of_int n))).
  { unfold Z'; rewrite length_app, length_skipn, repeat_length; lia. }
  destruct (quad_prune_loop n mu0 W' Z' (sx_M o)) with (x := x0) (w := w0)
    as (x' & w' & Hloop & Hfx & Hfw & Hlx & Hlw); try assumption; try lia.
  - unfold W'; rewrite length_app; lia.
  - rewrite Hloop. cbn [bind].
    assert (Hk : quad_kept n mu0 W' Z' (Z.to_nat (sx_M o)) = kept).
    { unfold W', Z', kept; apply quad_kept_store; lia. }
    rewrite Hk in *.
    pose proof (quad_kept_length n mu0 (sx_W o) (sx_Z o) (Z.to_nat (sx_M o))) as Hle.
    fold kept in Hle.
    rewrite !vresize_shrink by lia. cbn [bind].
    rewrite Nat2Z.id, Hfx, Hfw; reflexivity.
Qed.

Lemma gaussHermiteDataGolubWelsch_unfold (n : Z) (x w : vec double) :
  0 < n <= INT_MAX ->
  gaussHermiteDataGolubWelsch n x w
  = ('(x, w) <- quadInfoGolubWelsch n (jacobi_D n) (jacobi_E n) (sqrt M_PI) x w ;;
     Ok (0, x, w)).
Proof.
  intros Hn; unfold gaussHermiteDataGolubWelsch.
  rewrite valloc_Ok by lia. cbn [bind].
  rewrite buildHermiteJacobi_spec by (rewrite ?repeat_length; lia). cbn [bind].
  rewrite skipn_repeat.
  replace (Z.to_nat n - Z.to_nat (n - 1))%nat with 1%nat by lia.
  reflexivity.
Qed.

End GolubWelsch.

(** C1. For a positive order [n] and an eigensolver that returns [M <= n]
    eigenvalues and [M] eigenvectors of finite entries inside the storage
    it was given, [gaussHermiteDataGolubWelsch] returns nodes and weights
    of the same length, at most [n]; the pairs are, in the order of the
    solver, the eigenvalue [W[i]] with the weight
    [sqrt(pi) * Z[i * n] * Z[i * n]], without the pairs whose weight is
    below [sqrt(epsilon)]; every weight returned is at least
    [sqrt(epsilon)]. *)
Theorem gaussHermiteDataGolubWelsch_rule {libm : Libm} {lapack : Lapack}
    (n : Z) (x w : vec double) :
  let o := dstevx (quad_call n (jacobi_D n) (jacobi_E n)) in
  let pairs := map (quad_candidate n (sqrt M_PI) (sx_W o) (sx_Z o))
                   (zseq 0 (Z.to_nat (sx_M o))) in
  0 < n -> 5 * n <= INT_MAX ->
  0 <= sx_M o <= n ->
  sx_M o <= Z.of_nat (length (sx_W o)) <= n ->
  sx_M o * n <= Z.of_nat (length (sx_Z o))
             <= uint_mul (uint_add (Mmax_predicted n) 100) (uint_of_int n) ->
  (forall i, 0 <= i < sx_M o ->
             is_finite (nth (Z.to_nat (i * n)) (sx_Z o) zero) = true) ->
  exists xs ws,
    gaussHermiteDataGolubWelsch n x w = Ok (0, xs, ws)
    /\ length xs = length ws
    /\ Z.of_nat (length xs) <= n
    /\ combine xs ws = filter (fun p => negb (ltb (snd p) (sqrt epsilon))) pairs
    /\ Forall (fun wv => leb (sqrt epsilon) wv = true) ws.
Proof.
  intros o pairs Hn H5 HM HW HZ Hfin.
  assert (Hint : INT_MAX = 2147483647) by reflexivity.
  rewrite gaussHermiteDataGolubWelsch_unfold by lia.
  rewrite quadInfoGolubWelsch_spec by assumption.
  fold o. cbn [bind].
  set (kept := quad_kept n (sqrt M_PI) (sx_W o) (sx_Z o) (Z.to_nat (sx_M o))).
  exists (map fst kept), (map snd kept).
  split; [reflexivity|].
  split; [rewrite !length_map; reflexivity|].
  split.
  { rewrite length_map.
    pose proof (quad_kept_length n (sqrt M_PI) (sx_W o) (sx_Z o) (Z.to_nat (sx_M o))).
    fold kept in H; lia. }
  split; [apply combine_fst_snd|].
  apply Forall_forall; intros wv Hwv.
  apply in_map_iff in Hwv; destruct Hwv as (p & <- & Hp).
  apply filter_In in Hp; destruct Hp as (Hin & Hkeep).
  apply in_map_iff in Hin; destruct Hin as (i & <- & Hi).
  apply zseq_In in Hi.
  unfold quad_keep in Hkeep; apply negb_true_iff in Hkeep.
  apply ltb_false_leb; auto.
  unfold quad_candidate; cbn [snd].
  apply weight_not_nan; [reflexivity|].
  apply Hfin; lia.
Qed.

Lemma gaussHermiteDataGolubWelsch_rule_witness :
  exists xs ws,
    @gaussHermiteDataGolubWelsch libm_sample lapack_sample 1 [] [] = Ok (0, xs, ws)
    /\ length xs = length ws
    /\ Z.of_nat (length xs) <= 1
    /\ combine xs ws = [(zero, sqrt M_PI)]
    /\ Forall (fun wv => leb (sqrt epsilon) wv = true) ws.
Proof.
  apply (@gaussHermiteDataGolubWelsch_rule libm_sample lapack_sample 1 [] []).
  - lia.
  - unfold INT_MAX; lia.
  - vm_compute; split; discriminate.
  - vm_compute; split; discriminate.
  - vm_compute; split; discriminate.
  - intros i Hi.
    change (0 <= i < 1) in Hi.
    replace i with 0 by lia.
    reflexivity.
Defined.

(** C8, as amended. For a positive order [n] the vectors handed to the
    eigensolver are [D] of length [n], all zero, and [E] of length [n]
    (not [n - 1]) with [E[i] = sqrt((i + 1) / 2)] for [i] from 0 to
    [n - 2] and the last element, never stored, zero. *)
Theorem jacobi_matrix_built {libm : Libm} {lapack : Lapack}
    (n : Z) (x w : vec double) :
  0 < n <= INT_MAX ->
  gaussHermiteDataGolubWelsch n x w
  = ('(x, w) <- quadInfoGolubWelsch n (jacobi_D n) (jacobi_E n) (sqrt M_PI) x w ;;
     Ok (0, x, w))
  /\ (D0 <- valloc n zero ;; E0 <- valloc n zero ;; buildHermiteJacobi n D0 E0)
     = Ok (jacobi_D n, jacobi_E n)
  /\ sx_D (quad_call n (jacobi_D n) (jacobi_E n)) = jacobi_D n
  /\ sx_E (quad_call n (jacobi_D n) (jacobi_E n)) = jacobi_E n
  /\ Z.of_nat (length (jacobi_D n)) = n
  /\ (forall i, 0 <= i < n -> vget (jacobi_D n) i = Ok zero)
  /\ Z.of_nat (length (jacobi_E n)) = n
  /\ (forall i, 0 <= i < n - 1 ->
                vget (jacobi_E n) i = Ok (sqrt ((of_Z i + one) / two)%D))
  /\ vget (jacobi_E n) (n - 1) = Ok zero.
Proof.
  intros Hn.
  split; [apply gaussHermiteDataGolubWelsch_unfold; exact Hn|].
  split.
  { rewrite valloc_Ok by lia. cbn [bind].
    rewrite buildHermiteJacobi_spec by (rewrite ?repeat_length; lia).
    rewrite skipn_repeat.
    replace (Z.to_nat n - Z.to_nat (n - 1))%nat with 1%nat by lia.
    reflexivity. }
  split; [reflexivity|]. split; [reflexivity|].
  unfold jacobi_D, jacobi_E.
  split; [rewrite repeat_length; lia|].
  split; [intros i Hi; apply vget_repeat; lia|].
  split; [rewrite length_app, length_map, zseq_length; simpl; lia|].
  split.
  - intros i Hi; apply vget_Ok; [lia|].
    rewrite nth_error_app1 by (rewrite length_map, zseq_length; lia).
    rewrite nth_error_map, zseq_nth by lia.
    simpl; rewrite Z2Nat.id by lia; reflexivity.
  - apply vget_Ok; [lia|].
    rewrite nth_error_app2 by (rewrite length_map, zseq_length; lia).
    rewrite length_map, zseq_length, Nat.sub_diag; reflexivity.
Qed.

Lemma jacobi_matrix_built_witness :
  (D0 <- valloc 3 zero ;; E0 <- valloc 3 zero ;; buildHermiteJacobi 3 D0 E0)
  = Ok ([zero; zero; zero], [sqrt half; one; zero]).
Proof.
  destruct (@jacobi_matrix_built libm_sample lapack_sample 3 [] [])
    as (_ & H & _); [unfold INT_MAX; lia|].
  exact H.
Defined.

(** At order 2 the off-diagonal vector handed on has two elements, not
    [max(n - 1, 0) = 1]. *)
Lemma jacobi_offdiag_length_counterexample :
  exists D E,
    (D0 <- valloc 2 zero ;; E0 <- valloc 2 zero ;; buildHermiteJacobi 2 D0 E0)
    = Ok (D, E)
    /\ Z.of_nat (length E) <> Z.max (2 - 1) 0.
Proof.
  eexists; eexists; split; [vm_compute; reflexivity|].
  vm_compute; discriminate.
Qed.

(** ** The companion matrix (claims C7 and C10) *)

Lemma vget_list_upd {A} (v : vec A) (i j : Z) (a : A) :
  0 <= i < Z.of_nat (length v) -> 0 <= j ->
  vget (list_upd v (Z.to_nat i) a) j = if i =? j then Ok a else vget v j.
Proof.
  intros Hi Hj.
  destruct (Z.eqb_spec i j) as [->|Hne].
  - apply vget_list_upd_eq; exact Hi.
  - apply vget_list_upd_ne; lia.
Qed.

(** A column-major index determines its row and its column. *)
Lemma colmajor_inj (n r c r' c' : Z) :
  0 <= r < n -> 0 <= r' < n -> r + n * c = r' + n * c' -> r = r' /\ c = c'.
Proof.
  intros Hr Hr' H.
  assert (c = c') by nia.
  subst c'; lia.
Qed.

Lemma companion_spec (c : vec double) (n : Z) :
  0 <= n -> n * n <= INT_MAX ->
  Z.of_nat (length c) = n + 1 ->
  exists C,
    companion c n = Ok C
    /\ Z.of_nat (length C) = n * n
    /\ forall row col, 0 <= row < n -> 0 <= col < n ->
         vget C (row + n * col) = Ok (companion_entry c n row col).
Proof.
  intros Hn Hmax Hc; unfold companion.
  assert (Hint : INT_MAX = 2147483647) by reflexivity.
  int_norm.
  rewrite valloc_Ok by nia. cbn [bind].
  rewrite for_range_fill_same by nia. cbn [bind].
  destruct (Z.eq_dec n 0) as [->|Hn0].
  { rewrite !for_range_empty by lia. cbn [bind].
    eexists; split; [reflexivity|]; split; [reflexivity|]; intros; lia. }
  (* the subdiagonal *)
  match goal with
  | |- context [for_range 1 n ?body ?s] =>
      destruct (for_range_inv (S := vec double)
                  (fun i C => Z.of_nat (length C) = n * n
                              /\ forall row col, 0 <= row < n -> 0 <= col < n ->
                                   vget C (row + n * col)
                                   = Ok (if (row =? col + 1) && (row <? i)
                                         then one else zero))
                  1 n body s)
        as (C1 & HC1 & Hlen1 & Hent1)
  end.
  - lia.
  - split; [rewrite repeat_length; nia|].
    intros row col Hr Hcol.
    rewrite vget_repeat by nia.
    destruct (row =? col + 1) eqn:E1; destruct (row <? 1) eqn:E2; simpl; auto.
    apply Z.eqb_eq in E1; apply Z.ltb_lt in E2; lia.
  - intros i C Hi (Hlen & Hent).
    assert (0 <= n * (i - 1) <= n * (n - 1)) by nia.
    cbv beta. int_norm.
    rewrite vset_Ok by nia.
    eexists; split; [reflexivity|].
    split; [rewrite list_upd_length; exact Hlen|].
    intros row col Hr Hcol.
    rewrite vget_list_upd by nia.
    rewrite Hent by assumption.
    destruct (Z.eqb_spec (i + n * (i - 1)) (row + n * col)) as [E|E].
    + apply colmajor_inj in E; [|lia|lia].
      destruct E as (-> & <-).
      replace (row =? row - 1 + 1) with true by lia.
      replace (row <? row + 1) with true by lia.
      reflexivity.
    + destruct (Z.eqb_spec row (col + 1)) as [E1|E1]; simpl; auto.
      destruct (Z.ltb_spec row i), (Z.ltb_spec row (i + 1)); auto; try lia.
      subst row; exfalso; apply E.
      replace i with (col + 1) by lia; f_equal; f_equal; lia.
  - rewrite HC1. cbn [bind].
    (* the last column *)
    match goal with
    | |- context [for_range 0 n ?body ?s] =>
        destruct (for_range_inv (S := vec double)
                    (fun i C => Z.of_nat (length C) = n * n
                                /\ forall row col, 0 <= row < n -> 0 <= col < n ->
                                     vget C (row + n * col)
                                     = Ok (if (col =? n - 1) && (row <? i)
                                           then companion_entry c n row col
                                           else if row =? col + 1 then one else zero))
                    0 n body s)
          as (C2 & HC2 & Hlen2 & Hent2)
    end.
    + lia.
    + split; [exact Hlen1|].
      intros row col Hr Hcol.
      rewrite Hent1 by assumption.
      replace (row <? n) with true by lia.
      replace (row <? 0) with false by lia.
      rewrite !andb_true_r, andb_false_r; reflexivity.
    + intros i C Hi (Hlen & Hent).
      cbv beta.
      rewrite (vget_nth c i zero), (vget_nth c n zero) by lia. cbn [bind].
      assert (0 <= n * (n - 1) <= n * n) by nia.
      cbv beta. int_norm.
      rewrite vset_Ok by nia.
      eexists; split; [reflexivity|].
      split; [rewrite list_upd_length; exact Hlen|].
      intros row col Hr Hcol.
      rewrite vget_list_upd by nia.
      rewrite Hent by assumption.
      destruct (Z.eqb_spec (i + n * (n - 1)) (row + n * col)) as [E|E].
      * apply colmajor_inj in E; [|lia|lia].
        destruct E as (-> & <-).
        rewrite Z.eqb_refl.
        replace (row <? row + 1) with true by lia.
        unfold companion_entry; rewrite Z.eqb_refl; reflexivity.
      * destruct (Z.eqb_spec col (n - 1)) as [E1|E1]; simpl; auto.
        destruct (Z.ltb_spec row i), (Z.ltb_spec row (i + 1)); auto; lia.
    + exists C2; split; [exact HC2|]; split; [exact Hlen2|].
      intros row col Hr Hcol.
      rewrite Hent2 by assumption.
      replace (row <? n) with true by lia.
      rewrite andb_true_r.
      unfold companion_entry.
      destruct (col =? n - 1); reflexivity.
Qed.

Lemma dgeev_triangular_conforms : @dgeev_conforms lapack_sample.
Proof.
  intros a Hn; simpl; unfold dgeev_triangular.
  destruct (ge_LWORK a =? -1); simpl.
  - repeat split; vm_compute; discriminate.
  - rewrite length_map, zseq_length, repeat_length; lia.
Qed.

Section Roots.

Context {lapack : Lapack}.
Hypothesis Hdgeev : dgeev_conforms.

Lemma findPolyRoots_spec (c : vec double) (n : Z) (r : vec double) :
  0 <= n -> n * n <= INT_MAX ->
  Z.of_nat (length c) = n + 1 ->
  Z.of_nat (length r) = n ->
  exists C,
    companion c n = Ok C
    /\ Z.of_nat (length C) = n * n
    /\ (forall row col, 0 <= row < n -> 0 <= col < n ->
          vget C (row + n * col) = Ok (companion_entry c n row col))
    /\ findPolyRoots c n r
       = Ok (ge_WR (dgeev (roots_call n C
                             (to_int (ge_WORK1 (dgeev (roots_call n C (-1))))))))
    /\ Z.of_nat
         (length (ge_WR (dgeev (roots_call n C
                                  (to_int (ge_WORK1 (dgeev (roots_call n C (-1)))))))))
       = n.
Proof.
  intros Hn Hmax Hc Hr.
  destruct (companion_spec c n Hn Hmax Hc) as (C & HC & Hlen & Hent).
  exists C; split; [exact HC|]. split; [exact Hlen|]. split; [exact Hent|].
  unfold findPolyRoots; rewrite HC. cbn [bind].
  rewrite valloc_Ok by lia. cbn [bind].
  pose proof (Hdgeev (roots_call n C (-1)) Hn) as Hq.
  cbv zeta in Hq; cbn [ge_LWORK roots_call] in Hq.
  change (-1 =? -1) with true in Hq; cbv iota in Hq.
  destruct Hq as (HqA & HqR & HqI & HqW).
  set (q := dgeev (roots_call n C (-1))) in *.
  unfold roots_store.
  rewrite HqA, HqR, HqI.
  rewrite !vstore_Ok by (simpl; lia).
  cbn [bind app length skipn].
  rewrite valloc_Ok by exact HqW. cbn [bind].
  set (LWORK := to_int (ge_WORK1 q)) in *.
  pose proof (Hdgeev (roots_call n C LWORK) Hn) as Ho.
  cbv zeta in Ho; cbn [ge_LWORK ge_A ge_N roots_call] in Ho.
  destruct (Z.eqb_spec LWORK (-1)) as [E|_]; [lia|].
  destruct Ho as (HoA & HoR & HoI).
  set (o := dgeev (roots_call n C LWORK)) in *.
  rewrite !vstore_Ok by (rewrite ?repeat_length; lia).
  cbn [bind].
  rewrite (skipn_all2 r) by lia.
  rewrite app_nil_r.
  split; [reflexivity|exact HoR].
Qed.

End Roots.

(** C7. For a coefficient vector [c] of length [n + 1] and a result vector
    [r] of length [n], [findPolyRoots] builds the [n] x [n] companion
    matrix (ones below the diagonal, [-c[i] / c[n]] in the last column,
    zero elsewhere), calls [dgeev] with both job flags ["N"] on it and
    returns the [n] real parts [WR]; the imaginary parts are dropped. *)
Theorem findPolyRoots_companion {lapack : Lapack} (c : vec double) (n : Z)
    (r : vec double) :
  dgeev_conforms ->
  0 <= n -> n * n <= INT_MAX ->
  Z.of_nat (length c) = n + 1 ->
  Z.of_nat (length r) = n ->
  exists C call,
    companion c n = Ok C
    /\ Z.of_nat (length C) = n * n
    /\ (forall i, 1 <= i < n -> vget C (i + n * (i - 1)) = Ok one)
    /\ (forall i, 0 <= i < n ->
          vget C (i + n * (n - 1))
          = Ok (opp (nth (Z.to_nat i) c zero) / nth (Z.to_nat n) c zero)%D)
    /\ (forall row col, 0 <= row < n -> 0 <= col < n ->
          col <> n - 1 -> row <> col + 1 -> vget C (row + n * col) = Ok zero)
    /\ ge_JOBVL call = "N"%char /\ ge_JOBVR call = "N"%char
    /\ ge_N call = n /\ ge_A call = C
    /\ findPolyRoots c n r = Ok (ge_WR (dgeev call))
    /\ Z.of_nat (length (ge_WR (dgeev call))) = n.
Proof.
  intros Hd Hn Hmax Hc Hr.
  destruct (findPolyRoots_spec Hd c n r Hn Hmax Hc Hr)
    as (C & HC & Hlen & Hent & Hroots & Hlr).
  exists C, (roots_call n C (to_int (ge_WORK1 (dgeev (roots_call n C (-1)))))).
  split; [exact HC|]. split; [exact Hlen|].
  split.
  { intros i Hi; rewrite Hent by lia.
    unfold companion_entry.
    destruct (Z.eqb_spec (i - 1) (n - 1)); [lia|].
    destruct (Z.eqb_spec i (i - 1 + 1)); [reflexivity|lia]. }
  split.
  { intros i Hi; rewrite Hent by lia.
    unfold companion_entry; rewrite Z.eqb_refl; reflexivity. }
  split.
  { intros row col Hrow Hcol Hc1 Hc2; rewrite Hent by lia.
    unfold companion_entry.
    destruct (Z.eqb_spec col (n - 1)); [lia|].
    destruct (Z.eqb_spec row (col + 1)); [lia|reflexivity]. }
  repeat (split; [reflexivity|]).
  split; [exact Hroots|exact Hlr].
Qed.

Lemma findPolyRoots_companion_witness :
  exists roots,
    @findPolyRoots lapack_sample [two; one] 1 [zero] = Ok roots
    /\ Z.of_nat (length roots) = 1.
Proof.
  destruct (@findPolyRoots_companion lapack_sample [two; one] 1 [zero])
    as (C & call & _ & _ & _ & _ & _ & _ & _ & _ & _ & Hr & Hl).
  - exact dgeev_triangular_conforms.
  - lia.
  - unfold INT_MAX; lia.
  - reflexivity.
  - reflexivity.
  - eexists; split; [exact Hr|exact Hl].
Defined.

(** ** Division by the leading coefficient (claim C10) *)

Lemma div_finite_not_nan (a b : double) :
  is_finite a = true -> is_finite b = true -> is_zero b = false ->
  is_nan (a / b)%D = false.
Proof.
  destruct a as [sa|sa| |sa ma ea], b as [sb|sb| |sb mb eb]; simpl;
    intros Ha Hb Hz; try discriminate; try reflexivity.
  unfold Double.div, SFdiv.
  destruct (SFdiv_core_binary prec emax (Z.pos ma) ea (Z.pos mb) eb)
    as ((mz & ez) & lz) eqn:E.
  apply binary_round_aux_not_nan.
  unfold SFdiv_core_binary in E.
  set (m' := match _ - _ - _ with Z0 => _ | Zpos _ => _ | Zneg _ => _ end) in E.
  assert (Hm' : 0 <= m').
  { unfold m'; destruct (_ - _ - _); try lia.
    apply Z.shiftl_nonneg; lia. }
  pose proof (Z.div_pos m' (Z.pos mb) Hm' ltac:(lia)) as Hq.
  unfold Z.div in Hq.
  destruct (Z.div_eucl m' (Z.pos mb)) as (q & r).
  inversion E; subst; exact Hq.
Qed.

Lemma div_by_zero_not_finite (a b : double) :
  is_finite a = true -> is_zero b = true -> is_finite (a / b)%D = false.
Proof.
  destruct a as [sa|sa| |sa ma ea], b as [sb|sb| |sb mb eb]; simpl;
    intros Ha Hb; try discriminate; reflexivity.
Qed.

Lemma opp_is_finite (a : double) : is_finite (opp a) = is_finite a.
Proof. destruct a; reflexivity. Qed.

(** C10. [findPolyRoots] forms every entry [-c[i] / c[n]] of the last
    column without a test of [c[n]]. For finite coefficients: when [c[n]]
    is not zero every such entry is a number (not a NaN); when [c[n]] is
    zero the matrix is built all the same and every such entry is the
    outcome of a division by zero, an infinity or a NaN. *)
Theorem companion_division (c : vec double) (n : Z) :
  0 < n -> n * n <= INT_MAX ->
  Z.of_nat (length c) = n + 1 ->
  Forall (fun ci => is_finite ci = true) c ->
  exists C,
    companion c n = Ok C
    /\ (forall i, 0 <= i < n ->
          vget C (i + n * (n - 1))
          = Ok (opp (nth (Z.to_nat i) c zero) / nth (Z.to_nat n) c zero)%D)
    /\ (is_zero (nth (Z.to_nat n) c zero) = false ->
        forall i, 0 <= i < n ->
          is_nan (opp (nth (Z.to_nat i) c zero) / nth (Z.to_nat n) c zero)%D = false)
    /\ (is_zero (nth (Z.to_nat n) c zero) = true ->
        forall i, 0 <= i < n ->
          is_finite (opp (nth (Z.to_nat i) c zero) / nth (Z.to_nat n) c zero)%D = false).
Proof.
  intros Hn Hmax Hc Hfin.
  destruct (companion_spec c n ltac:(lia) Hmax Hc) as (C & HC & Hlen & Hent).
  assert (Hnth : forall k, 0 <= k <= n -> is_finite (nth (Z.to_nat k) c zero) = true).
  { intros k Hk; rewrite Forall_forall in Hfin.
    apply Hfin, nth_In; lia. }
  exists C; split; [exact HC|].
  split.
  { intros i Hi; rewrite Hent by lia.
    unfold companion_entry; rewrite Z.eqb_refl; reflexivity. }
  split.
  - intros Hz i Hi.
    apply div_finite_not_nan; auto.
    + rewrite opp_is_finite; apply Hnth; lia.
    + apply Hnth; lia.
  - intros Hz i Hi.
    apply div_by_zero_not_finite; auto.
    rewrite opp_is_finite; apply Hnth; lia.
Qed.

Lemma companion_division_witness :
  companion [two; zero] 1 = Ok [S754_infinity true]
  /\ companion [zero; zero] 1 = Ok [S754_nan]
  /\ companion [two; one] 1 = Ok [opp two].
Proof.
  split; [|split].
  - destruct (companion_division [two; zero] 1) as (C & HC & Hent & _ & _).
    + lia.
    + unfold INT_MAX; lia.
    + reflexivity.
    + repeat constructor.
    + specialize (Hent 0 ltac:(lia)).
      rewrite HC; f_equal.
      destruct C as [|e [|? ?]]; try (vm_compute in HC; discriminate HC).
      vm_compute in Hent; inversion Hent; reflexivity.
  - destruct (companion_division [zero; zero] 1) as (C & HC & Hent & _ & _).
    + lia.
    + unfold INT_MAX; lia.
    + reflexivity.
    + repeat constructor.
    + specialize (Hent 0 ltac:(lia)).
      rewrite HC; f_equal.
      destruct C as [|e [|? ?]]; try (vm_compute in HC; discriminate HC).
      vm_compute in Hent; inversion Hent; reflexivity.
  - destruct (companion_division [two; one] 1) as (C & HC & Hent & _ & _).
    + lia.
    + unfold INT_MAX; lia.
    + reflexivity.
    + repeat constructor.
    + specialize (Hent 0 ltac:(lia)).
      rewrite HC; f_equal.
      destruct C as [|e [|? ?]]; try (vm_compute in HC; discriminate HC).
      vm_compute in Hent; inversion Hent; reflexivity.
Defined.

(** ** The direct engine (claim C5) *)

Lemma hermitePoly_value_Ok (x : double) (n : Z) :
  n <> INT_MAX -> hermitePoly x n = Ok (hermitePoly_value x n).
Proof.
  intros Hn; unfold hermitePoly_value.
  destruct (hermitePoly_defined x n Hn) as (h & ->); reflexivity.
Qed.

Lemma list_upd_twice {A} (l : list A) (k : nat) (a b : A) :
  list_upd (list_upd l k a) k b = list_upd l k b.
Proof.
  revert k; induction l as [|h t IH]; intros [|k]; simpl; auto.
  f_equal; apply IH.
Qed.

Lemma nth_map_zseq {A} (f : Z -> A) (k : nat) (i : nat) (d : A) :
  (i < k)%nat -> nth i (map f (zseq 0 k)) d = f (Z.of_nat i).
Proof.
  intros Hi.
  apply nth_error_nth.
  rewrite nth_error_map, zseq_nth by exact Hi.
  reflexivity.
Qed.

(** C5, as amended. For an order [n] from 1 to 25 and vectors [x] and
    [w] of length [n], [gaussHermiteDataDirect] returns status 0, [n]
    nodes and [n] weights. The coefficients it computes are those of the
    Hermite polynomial of degree [n] (the row [n] of the integer
    recurrence); the nodes are the real parts [dgeev] returns for the
    companion matrix of these coefficients; the weight of index [i] is
    [exp((n - 1) * log 2 + lgamma(n + 1) + 0.5 * log(pi) - 2 * log(n)
    - 2 * log(|h|))] with [h] the value of [hermitePoly] at the node of
    index [i] and the order [n - 1]. *)
Theorem gaussHermiteDataDirect_rule {libm : Libm} {lapack : Lapack}
    (n : Z) (x w : vec double) :
  dgeev_conforms ->
  1 <= n <= 25 ->
  Z.of_nat (length x) = n ->
  Z.of_nat (length w) = n ->
  let coef := map of_Z (Hermite_coefficients n) in
  exists C nodes weights,
    hermitePolyCoef n (repeat zero (Z.to_nat (n + 1))) = Ok coef
    /\ companion coef n = Ok C
    /\ Z.of_nat (length C) = n * n
    /\ (forall row col, 0 <= row < n -> 0 <= col < n ->
          vget C (row + n * col) = Ok (companion_entry coef n row col))
    /\ nodes = ge_WR (dgeev (roots_call n C
                               (to_int (ge_WORK1 (dgeev (roots_call n C (-1)))))))
    /\ findPolyRoots coef n x = Ok nodes
    /\ gaussHermiteDataDirect n x w = Ok (0, nodes, weights)
    /\ Z.of_nat (length nodes) = n
    /\ Z.of_nat (length weights) = n
    /\ forall i, 0 <= i < n ->
         exists xi h,
           vget nodes i = Ok xi
           /\ hermitePoly xi (n - 1) = Ok h
           /\ vget weights i
              = Ok (exp ((of_Z n - one) * log two + lgamma (of_Z (n + 1))
                         + half * log M_PI
                         - two * log (of_Z n) - two * log (abs h))%D).
Proof.
  intros Hd Hn Hx Hw coef.
  assert (Hint : INT_MAX = 2147483647) by reflexivity.
  assert (Hcoef : hermitePolyCoef n (repeat zero (Z.to_nat (n + 1))) = Ok coef).
  { replace n with (Z.of_nat (Z.to_nat n)) at 1 by lia.
    unfold coef.
    replace n with (Z.of_nat (Z.to_nat n)) at 3 by lia.
    apply hermitePolyCoef_exact_nat; [lia|].
    rewrite repeat_length; lia. }
  assert (Hlc : Z.of_nat (length coef) = n + 1).
  { destruct (hermitePolyCoef_total n (repeat zero (Z.to_nat (n + 1))))
      as (c' & Hc' & Hl); [lia|nia|rewrite repeat_length; lia|].
    rewrite Hcoef in Hc'; inversion Hc' as [Hcc]; rewrite Hcc; exact Hl. }
  destruct (findPolyRoots_spec Hd coef n x) as (C & HC & HlC & Hent & Hroots & Hlr);
    [lia|nia|exact Hlc|exact Hx|].
  set (nodes := ge_WR _) in *.
  set (f := fun i : Z =>
              exp (direct_logweight n
                     (hermitePoly_value (nth (Z.to_nat i) nodes zero) (n - 1)))).
  exists C, nodes, (map f (zseq 0 (Z.to_nat n))).
  split; [exact Hcoef|]. split; [exact HC|]. split; [exact HlC|].
  split; [exact Hent|]. split; [reflexivity|]. split; [exact Hroots|].
  split.
  { unfold gaussHermiteDataDirect.
    rewrite int_add_id by (unfold INT_MIN; nia).
    rewrite valloc_Ok by lia. cbn [bind].
    rewrite Hcoef. cbn [bind].
    rewrite Hroots. cbn [bind].
    rewrite (for_range_fill _ f w n).
    - cbn [bind].
      rewrite skipn_all2 by lia.
      rewrite app_nil_r; reflexivity.
    - lia.
    - intros j u Hj.
      rewrite (vget_nth nodes j zero) by lia. cbn [bind].
      rewrite int_sub_id by (unfold INT_MIN; nia).
      rewrite hermitePoly_value_Ok by nia. cbn [bind].
      unfold vset at 1.
      destruct ((0 <=? j) && (j <? Z.of_nat (length u))) eqn:E.
      + cbn [bind].
        apply andb_true_iff in E; destruct E as (E1%Z.leb_le & E2%Z.ltb_lt).
        rewrite vget_list_upd_eq by lia. cbn [bind].
        rewrite !vset_Ok by (rewrite ?list_upd_length; lia).
        rewrite list_upd_twice; reflexivity.
      + cbn [bind]. unfold vset; rewrite E; reflexivity. }
  split; [exact Hlr|].
  split; [rewrite length_map, zseq_length; lia|].
  intros i Hi.
  exists (nth (Z.to_nat i) nodes zero),
         (hermitePoly_value (nth (Z.to_nat i) nodes zero) (n - 1)).
  split; [apply vget_nth; lia|].
  split; [apply hermitePoly_value_Ok; nia|].
  rewrite (vget_nth _ i zero) by (rewrite length_map, zseq_length; lia).
  rewrite nth_map_zseq by lia.
  rewrite Z2Nat.id by lia.
  unfold f, direct_logweight.
  rewrite int_add_id by (unfold INT_MIN; nia).
  reflexivity.
Qed.

Lemma gaussHermiteDataDirect_rule_witness :
  exists C nodes weights,
    hermitePolyCoef 3 [zero; zero; zero; zero] = Ok (map of_Z [0; -12; 0; 8])
    /\ companion (map of_Z [0; -12; 0; 8]) 3 = Ok C
    /\ vget C (1 + 3 * 2) = Ok (opp (of_Z (-12)) / of_Z 8)%D
    /\ nodes = ge_WR (@dgeev lapack_sample (roots_call 3 C 3))
    /\ @gaussHermiteDataDirect libm_sample lapack_sample 3
         [zero; zero; zero] [zero; zero; zero]
       = Ok (0, nodes, weights)
    /\ Z.of_nat (length nodes) = 3 /\ Z.of_nat (length weights) = 3.
Proof.
  destruct (@gaussHermiteDataDirect_rule libm_sample lapack_sample 3
              [zero; zero; zero] [zero; zero; zero])
    as (C & nodes & weights & Hc & HC & _ & Hent & Hnodes & _ & H & Hn & Hw & _).
  - exact dgeev_triangular_conforms.
  - lia.
  - reflexivity.
  - reflexivity.
  - exists C, nodes, weights.
    split; [exact Hc|]. split; [exact HC|].
    split; [exact (Hent 1 2 ltac:(lia) ltac:(lia))|].
    split; [exact Hnodes|]. split; [exact H|]. split; assumption.
Defined.

(** At order 26 the coefficient of [x^6] that [hermitePolyCoef] hands on
    is [LONG_MIN], not the 9878783586287616000 of [H_26]: the matrix
    whose eigenvalues [gaussHermiteDataDirect] returns as nodes is not the
    companion matrix of the Hermite polynomial of degree 26. *)
Lemma gaussHermiteDataDirect_26_not_Hermite :
  exists coef C weights,
    hermitePolyCoef 26 (repeat zero 27) = Ok coef
    /\ nth 6 coef zero = of_Z LONG_MIN
    /\ nth 6 (Hermite_coefficients 26) 0 = 9878783586287616000
    /\ companion coef 26 = Ok C
    /\ vget C (6 + 26 * 25) = Ok (of_Z (2 ^ 37))
    /\ vget C (6 + 26 * 25)
       <> Ok (companion_entry (map of_Z (Hermite_coefficients 26)) 26 6 25)
    /\ @gaussHermiteDataDirect libm_sample lapack_sample 26
         (repeat zero 26) (repeat zero 26)
       = Ok (0, ge_WR (@dgeev lapack_sample (roots_call 26 C 3)), weights).
Proof.
  exists (match hermitePolyCoef 26 (repeat zero 27) with Ok c => c | _ => [] end).
  exists (match c <- hermitePolyCoef 26 (repeat zero 27) ;; companion c 26 with
          | Ok C => C
          | _ => []
          end).
  exists (match @gaussHermiteDataDirect libm_sample lapack_sample 26
                  (repeat zero 26) (repeat zero 26) with
          | Ok (_, _, weights) => weights
          | _ => []
          end).
  repeat (split; [vm_compute; reflexivity|]).
  split; [vm_compute; discriminate|].
  vm_compute; reflexivity.
Qed.

(** ** The host-facing wrappers (claim C4) *)

Lemma sread_salloc_new (v : vec double) (s : store) :
  sread (length s) (s ++ [v]) = Ok v.
Proof.
  unfold sread.
  rewrite nth_error_app2, Nat.sub_diag by lia; reflexivity.
Qed.

Lemma sread_salloc_old (a : addr) (v : vec double) (s : store) :
  (a < length s)%nat -> sread a (s ++ [v]) = sread a s.
Proof.
  intros H; unfold sread.
  rewrite nth_error_app1 by lia; reflexivity.
Qed.

Lemma sread_Ok_lt (a : addr) (s : store) (v : vec double) :
  sread a s = Ok v -> (a < length s)%nat.
Proof.
  unfold sread; destruct (nth_error s a) eqn:E; [|discriminate].
  intros _; apply nth_error_Some; congruence.
Qed.

Lemma swrite_Ok (a : addr) (v : vec double) (s : store) :
  (a < length s)%nat -> swrite a v s = Ok (list_upd s a v).
Proof.
  intros H; unfold swrite; apply Nat.ltb_lt in H; rewrite H; reflexivity.
Qed.

Lemma sread_list_upd_ne (a b : addr) (v : vec double) (s : store) :
  a <> b -> sread b (list_upd s a v) = sread b s.
Proof.
  intros H; unfold sread; rewrite nth_error_list_upd_ne by exact H; reflexivity.
Qed.

Lemma sread_list_upd_eq (a : addr) (v : vec double) (s : store) :
  (a < length s)%nat -> sread a (list_upd s a v) = Ok v.
Proof.
  intros H; unfold sread; rewrite nth_error_list_upd_eq by exact H; reflexivity.
Qed.

(** C4. Each wrapper returns the vector it allocated, still all zero and
    of length [n - 1] (roots) or [n + 1] (coefficients): the computation
    ran on a copy at another address, which holds its result. *)
Theorem wrappers_return_zeros {lapack : Lapack} :
  dgeev_conforms ->
  (forall (cR : addr) (s : store) (c : vec double),
      sread cR s = Ok c ->
      1 <= Z.of_nat (length c) ->
      (Z.of_nat (length c) - 1) * (Z.of_nat (length c) - 1) <= INT_MAX ->
      exists roots r s' computed,
        findPolyRoots_SEXP cR s = Ok (roots, s')
        /\ sread roots s' = Ok (repeat zero (length c - 1))
        /\ r <> roots
        /\ findPolyRoots c (Z.of_nat (length c) - 1) (repeat zero (length c - 1))
           = Ok computed
        /\ sread r s' = Ok computed)
  /\ (forall (nR : vec Z) (n : Z) (s : store),
         vget nR 0 = Ok n ->
         0 <= n -> (n + 1) * (n + 1) <= INT_MAX ->
         exists coef c s' computed,
           hermitePolyCoef_SEXP nR s = Ok (coef, s')
           /\ sread coef s' = Ok (repeat zero (Z.to_nat (n + 1)))
           /\ c <> coef
           /\ hermitePolyCoef n (repeat zero (Z.to_nat (n + 1))) = Ok computed
           /\ sread c s' = Ok computed).
Proof.
  intros Hd.
  assert (Hint : INT_MAX = 2147483647) by reflexivity.
  split.
  - intros cR s c Hc Hlen Hmax.
    set (n := Z.of_nat (length c)) in *.
    pose proof (sread_Ok_lt _ _ _ Hc) as HcR.
    destruct (findPolyRoots_spec Hd c (n - 1) (repeat zero (length c - 1)))
      as (C & _ & _ & _ & Hroots & _);
      [lia|exact Hmax|lia|rewrite repeat_length; lia|].
    unfold findPolyRoots_SEXP.
    rewrite Hc. cbn [bind].
    fold n.
    rewrite swrap32_id by (unfold INT_MIN; nia).
    rewrite int_sub_id by (unfold INT_MIN; nia).
    unfold NumericVector_new, as_vector.
    rewrite valloc_Ok by lia. cbn [bind].
    replace (Z.to_nat (n - 1)) with (length c - 1)%nat by lia.
    set (z := repeat zero (length c - 1)) in *.
    unfold salloc at 1. cbn [bind fst snd].
    set (s1 := s ++ [z]).
    assert (Hz1 : sread (length s) s1 = Ok z)
      by (apply (sread_salloc_new z s)).
    rewrite Hz1. cbn [bind].
    unfold salloc at 1. cbn [bind fst snd].
    set (s2 := s1 ++ [z]).
    assert (Hl1 : length s1 = S (length s))
      by (unfold s1; rewrite length_app; simpl; lia).
    assert (Hl2 : length s2 = S (S (length s)))
      by (unfold s2; rewrite length_app; simpl; lia).
    assert (Hc2 : sread cR s2 = Ok c).
    { unfold s2; rewrite (sread_salloc_old cR z s1) by lia.
      unfold s1; rewrite (sread_salloc_old cR z s) by lia.
      exact Hc. }
    rewrite Hc2. cbn [bind].
    unfold salloc at 1. cbn [bind fst snd].
    set (s3 := s2 ++ [c]).
    assert (Hl3 : length s3 = S (S (S (length s))))
      by (unfold s3; rewrite length_app; simpl; lia).
    assert (Hc3 : sread (length s2) s3 = Ok c)
      by (apply (sread_salloc_new c s2)).
    rewrite Hc3. cbn [bind].
    unfold findPolyRoots_at.
    assert (Hr3 : sread (length s1) s3 = Ok z).
    { unfold s3; rewrite (sread_salloc_old (length s1) c s2) by lia.
      apply (sread_salloc_new z s1). }
    rewrite Hr3. cbn [bind].
    rewrite Hroots. cbn [bind].
    rewrite swrite_Ok by lia. cbn [bind].
    eexists; exists (length s1); eexists; eexists.
    split; [reflexivity|].
    split.
    { rewrite sread_list_upd_ne by lia.
      unfold s3; rewrite (sread_salloc_old (length s) c s2) by lia.
      unfold s2; rewrite (sread_salloc_old (length s) z s1) by lia.
      exact Hz1. }
    split; [lia|].
    split; [reflexivity|].
    apply sread_list_upd_eq; lia.
  - intros nR n s HnR Hn Hmax.
    destruct (hermitePolyCoef_total n (repeat zero (Z.to_nat (n + 1))))
      as (computed & Hcomp & _); [lia|exact Hmax|rewrite repeat_length; lia|].
    unfold hermitePolyCoef_SEXP.
    rewrite HnR. cbn [bind].
    rewrite int_add_id by (unfold INT_MIN; nia).
    unfold NumericVector_new, as_vector.
    rewrite valloc_Ok by lia. cbn [bind].
    set (z := repeat zero (Z.to_nat (n + 1))) in *.
    unfold salloc at 1. cbn [bind fst snd].
    set (s1 := s ++ [z]).
    assert (Hz1 : sread (length s) s1 = Ok z)
      by (apply (sread_salloc_new z s)).
    rewrite Hz1. cbn [bind].
    unfold salloc at 1. cbn [bind fst snd].
    set (s2 := s1 ++ [z]).
    assert (Hl1 : length s1 = S (length s))
      by (unfold s1; rewrite length_app; simpl; lia).
    assert (Hl2 : length s2 = S (S (length s)))
      by (unfold s2; rewrite length_app; simpl; lia).
    unfold hermitePolyCoef_at.
    assert (Hr2 : sread (length s1) s2 = Ok z)
      by (apply (sread_salloc_new z s1)).
    rewrite Hr2. cbn [bind].
    rewrite Hcomp. cbn [bind].
    rewrite swrite_Ok by lia. cbn [bind].
    eexists; exists (length s1); eexists; eexists.
    split; [reflexivity|].
    split.
    { rewrite sread_list_upd_ne by lia.
      unfold s2; rewrite (sread_salloc_old (length s) z s1) by lia.
      exact Hz1. }
    split; [lia|].
    split; [reflexivity|].
    apply sread_list_upd_eq; lia.
Qed.

Lemma wrappers_return_zeros_witness :
  (exists roots s',
      @findPolyRoots_SEXP lapack_sample 0%nat [[two; one]] = Ok (roots, s')
      /\ sread roots s' = Ok [zero])
  /\ (exists coef s',
         hermitePolyCoef_SEXP [3] [] = Ok (coef, s')
         /\ sread coef s' = Ok [zero; zero; zero; zero]).
Proof.
  destruct (@wrappers_return_zeros lapack_sample dgeev_triangular_conforms)
    as (H1 & H2).
  split.
  - destruct (H1 0%nat [[two; one]] [two; one]) as (roots & r & s' & v & E & Hz & _).
    + reflexivity.
    + simpl; lia.
    + simpl; unfold INT_MAX; lia.
    + exists roots, s'; auto.
  - destruct (H2 [3] 3 []) as (coef & c & s' & v & E & Hz & _).
    + reflexivity.
    + lia.
    + unfold INT_MAX; lia.
    + exists coef, s'; auto.
Defined.

(** ** The status of the eigensolvers (claim C3) *)

Lemma quadInfoGolubWelsch_Z_overrun {libm : Libm} {lapack : Lapack}
    (n : Z) (D E : vec double) (mu0 : double) (x w : vec double) :
  0 < n -> 5 * n <= INT_MAX ->
  uint_mul (uint_add (Mmax_predicted n) 100) (uint_of_int n)
  < Z.of_nat (length (sx_Z (dstevx (quad_call n D E)))) ->
  quadInfoGolubWelsch n D E mu0 x w = Undefined.
Proof.
  intros Hn H5 Hover; unfold quadInfoGolubWelsch.
  rewrite quad_setup_Ok by assumption. cbn [bind qb_W qb_Z].
  pose proof (uwrap32_range (uint_add (Mmax_predicted n) 100 * uint_of_int n)) as Hcap.
  fold (uint_mul (uint_add (Mmax_predicted n) 100) (uint_of_int n)) in Hcap.
  unfold vstore at 1.
  destruct (_ <=? _)%nat; cbn [bind]; [|reflexivity].
  unfold vstore at 1.
  rewrite repeat_length.
  destruct (Nat.leb_spec (length (sx_Z (dstevx (quad_call n D E))))
              (Z.to_nat (uint_mul (uint_add (Mmax_predicted n) 100) (uint_of_int n))));
    [lia|reflexivity].
Qed.

Lemma quadInfoGolubWelsch_same {libm : Libm} (l1 l2 : Lapack)
    (n : Z) (D E : vec double) (mu0 : double) (x w : vec double) :
  same_but_INFO l1 l2 ->
  @quadInfoGolubWelsch libm l1 n D E mu0 x w = @quadInfoGolubWelsch libm l2 n D E mu0 x w.
Proof.
  intros (Hs & _); unfold quadInfoGolubWelsch.
  destruct (Hs (quad_call n D E)) as (-> & -> & ->).
  reflexivity.
Qed.

Lemma findPolyRoots_same (l1 l2 : Lapack) (c : vec double) (n : Z) (r : vec double) :
  same_but_INFO l1 l2 ->
  @findPolyRoots l1 c n r = @findPolyRoots l2 c n r.
Proof.
  intros (_ & Hg); unfold findPolyRoots.
  destruct (companion c n) as [C| |]; cbn [bind]; try reflexivity.
  destruct (valloc n zero) as [valI| |]; cbn [bind]; try reflexivity.
  unfold roots_store.
  destruct (Hg (roots_call n C (-1))) as (-> & -> & -> & ->).
  destruct (vstore C _) as [C1| |]; cbn [bind]; try reflexivity.
  destruct (vstore r _) as [r1| |]; cbn [bind]; try reflexivity.
  destruct (vstore valI _) as [valI1| |]; cbn [bind]; try reflexivity.
  destruct (valloc _ zero) as [work| |]; cbn [bind]; try reflexivity.
  destruct (Hg (roots_call n C1 (to_int (ge_WORK1 (@dgeev l2 (roots_call n C (-1)))))))
    as (-> & -> & -> & _).
  reflexivity.
Qed.

(** C3, as amended. The computation never reads [INFO]: with two LAPACK
    libraries that store the same values and differ at most in [INFO],
    [gaussHermiteDataGolubWelsch] and [findPolyRoots] give the same
    outcome, and the status [gaussHermiteDataGolubWelsch] returns is
    always 0. The count [M] is not compared with [Mmax]: when [dstevx]
    stores more eigenvector entries than were allocated, the outcome is
    undefined, not a signalled error. *)
Theorem solver_status_ignored {libm : Libm} (l1 l2 : Lapack) :
  same_but_INFO l1 l2 ->
  (forall n x w,
      @gaussHermiteDataGolubWelsch libm l1 n x w
      = @gaussHermiteDataGolubWelsch libm l2 n x w)
  /\ (forall c n r, @findPolyRoots l1 c n r = @findPolyRoots l2 c n r)
  /\ (forall n x w status xs ws,
         @gaussHermiteDataGolubWelsch libm l1 n x w = Ok (status, xs, ws) ->
         status = 0)
  /\ (forall n D E mu0 x w,
         0 < n -> 5 * n <= INT_MAX ->
         uint_mul (uint_add (Mmax_predicted n) 100) (uint_of_int n)
         < Z.of_nat (length (sx_Z (@dstevx l1 (quad_call n D E)))) ->
         @quadInfoGolubWelsch libm l1 n D E mu0 x w = Undefined).
Proof.
  intros Hs.
  split; [|split; [|split]].
  - intros n x w; unfold gaussHermiteDataGolubWelsch.
    destruct (valloc n zero) as [D| |]; cbn [bind]; try reflexivity.
    destruct (buildHermiteJacobi n D D) as [(D' & E')| |]; cbn [bind];
      try reflexivity.
    rewrite (quadInfoGolubWelsch_same l1 l2) by exact Hs.
    reflexivity.
  - intros c n r; apply findPolyRoots_same; exact Hs.
  - intros n x w status xs ws; unfold gaussHermiteDataGolubWelsch.
    destruct (valloc n zero) as [D| |]; cbn [bind]; try discriminate.
    destruct (buildHermiteJacobi n D D) as [(D' & E')| |]; cbn [bind];
      try discriminate.
    destruct (quadInfoGolubWelsch _ _ _ _ _ _) as [(x' & w')| |]; cbn [bind];
      try discriminate.
    intros H; inversion H; reflexivity.
  - intros n D E mu0 x w Hn H5 Hover.
    apply quadInfoGolubWelsch_Z_overrun; assumption.
Qed.

Lemma solver_status_ignored_witness :
  @gaussHermiteDataGolubWelsch libm_sample lapack_failing 1 [] []
  = @gaussHermiteDataGolubWelsch libm_sample lapack_sample 1 [] []
  /\ @quadInfoGolubWelsch libm_sample lapack_overfull 1 [zero] [zero] (sqrt M_PI) [] []
     = Undefined.
Proof.
  split.
  - assert (Hs : same_but_INFO lapack_failing lapack_sample)
      by (split; intros a; repeat split; reflexivity).
    destruct (@solver_status_ignored libm_sample lapack_failing lapack_sample Hs)
      as (H & _).
    apply H.
  - assert (Hs : same_but_INFO lapack_overfull lapack_overfull)
      by (split; intros a; repeat split; reflexivity).
    destruct (@solver_status_ignored libm_sample lapack_overfull lapack_overfull Hs)
      as (_ & _ & _ & H).
    apply H.
    + lia.
    + unfold INT_MAX; lia.
    + vm_compute; reflexivity.
Defined.

(** With an eigensolver that reports [INFO = 1], and with one that
    reports more eigenvalues than the storage holds, nothing is signalled:
    the first rule is returned with status 0, the second outcome is
    undefined; [findPolyRoots] returns as well. *)
Lemma solver_failure_not_signalled :
  (sx_INFO (@dstevx lapack_failing (quad_call 1 (jacobi_D 1) (jacobi_E 1))) <> 0
   /\ @gaussHermiteDataGolubWelsch libm_sample lapack_failing 1 [] []
      = Ok (0, [zero], [sqrt M_PI])
   /\ ~ signals_error (@gaussHermiteDataGolubWelsch libm_sample lapack_failing 1 [] []))
  /\ (ge_INFO (@dgeev lapack_failing (roots_call 1 [opp two] 3)) <> 0
      /\ @findPolyRoots lapack_failing [two; one] 1 [zero] = Ok [opp two])
  /\ (uint_add (@Mmax_predicted libm_sample 1) 100
      < sx_M (@dstevx lapack_overfull (quad_call 1 (jacobi_D 1) (jacobi_E 1)))
      /\ ~ signals_error (@gaussHermiteDataGolubWelsch libm_sample lapack_overfull 1 [] [])).
Proof.
  split; [|split].
  - split; [vm_compute; discriminate|].
    split; [vm_compute; reflexivity|].
    vm_compute; intros H; apply H; reflexivity.
  - split; [vm_compute; discriminate|vm_compute; reflexivity].
  - split; [vm_compute; reflexivity|].
    vm_compute; intros H; exact H.
Qed.

(** ** The eigenvector storage (claim C2) *)

(** The general shape of the storage: the call asks for the eigenvalues
    in [-4, 4] by value, and [Z] has [Mmax * n] elements in the arithmetic
    of [unsigned int]. *)
Lemma quad_storage {libm : Libm} (n : Z) (D E : vec double) :
  0 < n -> 5 * n <= INT_MAX ->
  exists b,
    quad_setup n = Ok b
    /\ sx_RANGE (quad_call n D E) = "V"%char
    /\ sx_VL (quad_call n D E) = opp four
    /\ sx_VU (quad_call n D E) = four
    /\ qb_Mmax b
       = uwrap 32
           (to_uint (ceil (pow two (Mmax_intercept + Mmax_slope * log2 (of_Z n))%D))
            + 100)
    /\ Z.of_nat (length (qb_Z b)) = uwrap 32 (qb_Mmax b * n).
Proof.
  intros Hn H5.
  rewrite quad_setup_Ok by assumption.
  eexists; split; [reflexivity|].
  repeat (split; [reflexivity|]).
  cbn [qb_Z qb_Mmax].
  rewrite repeat_length.
  unfold uint_mul.
  rewrite (uint_of_int_id n) by (unfold INT_MAX in *; lia).
  pose proof (uwrap32_range (uint_add (Mmax_predicted n) 100 * n)).
  lia.
Qed.

(** C2 at [n = 2^21]. With [ceil(2^(1.8177... + 0.5022... * log2(n)))
    = 5275], [Mmax] is 5375 and [Z] is allocated with 2682257408 elements,
    fewer than [Mmax * n = 11272192000]: the product wrapped around
    [2^32]. *)
Theorem quad_storage_wraps {libm : Libm} :
  Mmax_predicted 2097152 = 5275 ->
  exists b,
    quad_setup 2097152 = Ok b
    /\ qb_Mmax b = 5375
    /\ Z.of_nat (length (qb_Z b)) = 2682257408
    /\ qb_Mmax b * 2097152 = 11272192000.
Proof.
  intros HM.
  destruct (quad_storage 2097152 [] []) as (b & Hb & _ & _ & _ & HMmax & HZ);
    [lia|unfold INT_MAX; lia|].
  exists b; split; [exact Hb|].
  fold (Mmax_predicted 2097152) in HMmax.
  rewrite HM in HMmax.
  assert (E : qb_Mmax b = 5375) by (rewrite HMmax; reflexivity).
  rewrite E in HZ |- *.
  split; [reflexivity|].
  split; [rewrite HZ; reflexivity|reflexivity].
Qed.

Lemma quad_storage_wraps_witness :
  exists b,
    @quad_setup libm_recorded 2097152 = Ok b
    /\ qb_Mmax b = 5375
    /\ Z.of_nat (length (qb_Z b)) = 2682257408
    /\ qb_Mmax b * 2097152 = 11272192000.
Proof.
  apply (@quad_storage_wraps libm_recorded).
  vm_compute; reflexivity.
Defined.

(** * Further properties of the program *)

(** ** Loops that leave their vector *)

Lemma for_loop_app {St} (body : Z -> St -> result St) (k1 k2 : nat) :
  forall i s,
    for_loop (k1 + k2) i body s
    = (s' <- for_loop k1 i body s ;; for_loop k2 (i + Z.of_nat k1) body s').
Proof.
  induction k1 as [|k1 IH]; intros i s.
  - simpl; rewrite Z.add_0_r; reflexivity.
  - cbn [for_loop Nat.add].
    destruct (body i s) as [t| |]; cbn [bind]; auto.
    rewrite IH; replace (i + 1 + Z.of_nat k1) with (i + Z.of_nat (S k1)) by lia.
    reflexivity.
Qed.

(** A loop that stores into [v[i]] for [i] in [0, n) runs off a vector
    shorter than [n]. *)
Lemma for_range_fill_short {A} (body : Z -> vec A -> result (vec A)) (f : Z -> A)
    (v : vec A) (n : Z) :
  Z.of_nat (length v) < n ->
  (forall j u, 0 <= j < n -> body j u = vset u j (f j)) ->
  for_range 0 n body v = Undefined.
Proof.
  intros Hlen Hb; unfold for_range.
  rewrite Z.sub_0_r.
  replace (Z.to_nat n) with (length v + S (Z.to_nat n - length v - 1))%nat by lia.
  rewrite for_loop_app.
  pose proof (for_loop_fill body f (length v) [] v) as H.
  cbn [app length Z.of_nat] in H.
  rewrite H; [|lia|intros j u Hj; apply Hb; lia].
  cbn [bind]. rewrite skipn_all, app_nil_r.
  cbn [for_loop]. rewrite Z.add_0_l, Hb by lia.
  unfold vset.
  rewrite length_map, zseq_length.
  replace (Z.of_nat (length v) <? Z.of_nat (length v)) with false by lia.
  rewrite andb_false_r; reflexivity.
Qed.

(** ** [hermitePoly] *)

Lemma hermitePoly_iter_succ (x : double) (k : nat) :
  Nat.iter (S k)
    (fun '(hnm2, hnm1, hn, i) =>
       let hn := (two * x * hnm1 - two * (of_Z i - one) * hnm2)%D in
       (hnm1, hn, hn, i + 1))
    (one, (two * x)%D, zero, 2)
  = (let '(hnm2, hnm1, hn, i) :=
       Nat.iter k
         (fun '(hnm2, hnm1, hn, i) =>
            let hn := (two * x * hnm1 - two * (of_Z i - one) * hnm2)%D in
            (hnm1, hn, hn, i + 1))
         (one, (two * x)%D, zero, 2) in
     (hnm1, (two * x * hnm1 - two * (of_Z i - one) * hnm2)%D,
      (two * x * hnm1 - two * (of_Z i - one) * hnm2)%D, i + 1)).
Proof.
  simpl. destruct (Nat.iter k _ _) as (((a & b) & c) & i); reflexivity.
Qed.

(** The state of the loop of [hermitePoly] after [k + 1] turns: the
    counter is [k + 3], [hnm1] and [hn] hold the value of order [k + 2]
    and [hnm2] the value of order [k + 1]. *)
Lemma hermitePoly_loop_state (x : double) (k : nat) :
  Z.of_nat k + 2 < INT_MAX ->
  Nat.iter (S k)
    (fun '(hnm2, hnm1, hn, i) =>
       let hn := (two * x * hnm1 - two * (of_Z i - one) * hnm2)%D in
       (hnm1, hn, hn, i + 1))
    (one, (two * x)%D, zero, 2)
  = (hermitePoly_value x (Z.of_nat k + 1), hermitePoly_value x (Z.of_nat k + 2),
     hermitePoly_value x (Z.of_nat k + 2), Z.of_nat k + 3).
Proof.
  assert (Hval : forall j : nat,
             Z.of_nat j + 2 < INT_MAX ->
             hermitePoly_value x (Z.of_nat j + 2)
             = snd (fst (Nat.iter (S j)
                           (fun '(hnm2, hnm1, hn, i) =>
                              let hn := (two * x * hnm1 - two * (of_Z i - one) * hnm2)%D in
                              (hnm1, hn, hn, i + 1))
                           (one, (two * x)%D, zero, 2)))).
  { intros j Hj; unfold hermitePoly_value, hermitePoly, hermitePoly_steps.
    destruct (Z.eqb_spec (Z.of_nat j + 2) 0); [lia|].
    destruct (Z.eqb_spec (Z.of_nat j + 2) 1); [lia|].
    destruct (Z.eqb_spec (Z.of_nat j + 2) INT_MAX); [lia|].
    replace (Z.to_nat (Z.of_nat j + 2 - 1)) with (S j) by lia.
    destruct (Nat.iter (S j) _ _) as (((a & b) & c) & i); reflexivity. }
  induction k as [|k IH]; intros Hk.
  - reflexivity.
  - rewrite hermitePoly_iter_succ.
    rewrite IH by lia.
    replace (Z.of_nat (S k) + 1) with (Z.of_nat k + 2) by lia.
    replace (Z.of_nat (S k) + 3) with (Z.of_nat k + 3 + 1) by lia.
    rewrite (Hval (S k)) by lia.
    rewrite hermitePoly_iter_succ, IH by lia.
    reflexivity.
Qed.

(** X1. For an order [n] from 2 up to [INT_MAX - 1], the value
    [hermitePoly] returns is [2 * x * h1 - 2 * (n - 1) * h2] in double
    arithmetic, with [h1] and [h2] the values it returns for the orders
    [n - 1] and [n - 2]: the rolling variables of the loop carry the
    three-term recurrence. *)
Theorem hermitePoly_three_term (x : double) (n : Z) :
  2 <= n < INT_MAX ->
  exists h1 h2,
    hermitePoly x (n - 1) = Ok h1
    /\ hermitePoly x (n - 2) = Ok h2
    /\ hermitePoly x n = Ok (two * x * h1 - two * (of_Z n - one) * h2)%D.
Proof.
  intros Hn.
  exists (hermitePoly_value x (n - 1)), (hermitePoly_value x (n - 2)).
  split; [apply hermitePoly_value_Ok; lia|].
  split; [apply hermitePoly_value_Ok; lia|].
  unfold hermitePoly at 1, hermitePoly_steps.
  destruct (Z.eqb_spec n 0); [lia|].
  destruct (Z.eqb_spec n 1); [lia|].
  destruct (Z.eqb_spec n INT_MAX); [lia|].
  replace (Z.to_nat (n - 1)) with (S (Z.to_nat (n - 2))) by lia.
  rewrite hermitePoly_iter_succ.
  destruct (Z.eq_dec n 2) as [->|Hn2].
  - reflexivity.
  - replace (Z.to_nat (n - 2)) with (S (Z.to_nat (n - 3))) by lia.
    rewrite hermitePoly_loop_state by lia.
    rewrite !Z2Nat.id by lia.
    replace (n - 3 + 1) with (n - 2) by lia.
    replace (n - 3 + 2) with (n - 1) by lia.
    replace (n - 3 + 3) with n by lia.
    reflexivity.
Qed.

Lemma hermitePoly_three_term_witness :
  exists h1 h2,
    hermitePoly two 2 = Ok h1 /\ hermitePoly two 1 = Ok h2
    /\ hermitePoly two 3 = Ok (two * two * h1 - two * (of_Z 3 - one) * h2)%D.
Proof.
  apply (hermitePoly_three_term two 3); unfold INT_MAX; lia.
Defined.

(** X2. For a negative order [hermitePoly] returns [0.]: neither special
    case applies and the loop is not entered. *)
Theorem hermitePoly_negative_order (x : double) (n : Z) :
  n < 0 -> hermitePoly x n = Ok zero.
Proof.
  intros Hn; unfold hermitePoly, hermitePoly_steps.
  destruct (Z.eqb_spec n 0); [lia|].
  destruct (Z.eqb_spec n 1); [lia|].
  destruct (Z.eqb_spec n INT_MAX); [unfold INT_MAX in *; lia|].
  replace (Z.to_nat (n - 1)) with O by lia.
  reflexivity.
Qed.

Lemma hermitePoly_negative_order_witness : hermitePoly two (-3) = Ok zero.
Proof. apply hermitePoly_negative_order; lia. Defined.

(** ** [evalHermitePoly] on an empty sequence *)

Lemma for_range_first_Undefined {St} (body : Z -> St -> result St) (n : Z) (s : St) :
  0 < n -> body 0 s = Undefined -> for_range 0 n body s = Undefined.
Proof.
  intros Hn Hb; unfold for_range.
  replace (Z.to_nat (n - 0)) with (S (Z.to_nat (n - 1))) by lia.
  simpl; rewrite Hb; reflexivity.
Qed.

(** X3. Two empty sequences give an empty result. When exactly one of the
    two sequences is empty, [evalHermitePoly] takes the branch of the
    longer one and reads element 0 of the empty one: an access outside
    the vector. *)
Theorem evalHermitePoly_empty (x : vec double) (n : vec Z) :
  evalHermitePoly [] [] = Ok []
  /\ (x <> [] -> evalHermitePoly x [] = Undefined)
  /\ (n <> [] -> evalHermitePoly [] n = Undefined).
Proof.
  split; [reflexivity|]. split.
  - intros Hx; destruct x as [|x0 x']; [contradiction|].
    unfold evalHermitePoly.
    destruct (Z.eqb_spec (Z.of_nat (@length Z [])) (Z.of_nat (length (x0 :: x'))));
      [simpl in *; lia|].
    destruct (Z.gtb_spec (Z.of_nat (length (x0 :: x'))) (Z.of_nat (@length Z [])));
      [|simpl in *; lia].
    rewrite valloc_Ok by lia. cbn [bind].
    apply for_range_first_Undefined; [simpl; lia|reflexivity].
  - intros Hn; destruct n as [|n0 n']; [contradiction|].
    unfold evalHermitePoly.
    destruct (Z.eqb_spec (Z.of_nat (length (n0 :: n'))) (Z.of_nat (@length double [])));
      [simpl in *; lia|].
    destruct (Z.gtb_spec (Z.of_nat (@length double [])) (Z.of_nat (length (n0 :: n'))));
      [simpl in *; lia|].
    rewrite valloc_Ok by lia. cbn [bind].
    apply for_range_first_Undefined; [simpl; lia|reflexivity].
Qed.

Lemma evalHermitePoly_empty_witness :
  evalHermitePoly [one; two] [] = Undefined /\ evalHermitePoly [] [3] = Undefined.
Proof.
  destruct (evalHermitePoly_empty [one; two] [3]) as (_ & H1 & H2).
  split; [apply H1|apply H2]; discriminate.
Defined.

(** ** [buildHermiteJacobi] on vectors of any length *)

(** X4. [buildHermiteJacobi] stores [n] zeros at the head of [D] and the
    [n - 1] off-diagonal entries at the head of [E] and leaves the rest of
    both vectors as it was; with [D] shorter than [n] or [E] shorter than
    [n - 1] it stores outside the vector; for [n <= 0] it changes
    nothing. *)
Theorem buildHermiteJacobi_frame (n : Z) (D E : vec double) :
  (0 < n <= INT_MAX ->
   n <= Z.of_nat (length D) -> n - 1 <= Z.of_nat (length E) ->
   buildHermiteJacobi n D E
   = Ok (repeat zero (Z.to_nat n) ++ skipn (Z.to_nat n) D,
         map jacobi_offdiag (zseq 0 (Z.to_nat (n - 1))) ++ skipn (Z.to_nat (n - 1)) E))
  /\ (0 < n <= INT_MAX ->
      Z.of_nat (length D) < n \/ Z.of_nat (length E) < n - 1 ->
      buildHermiteJacobi n D E = Undefined)
  /\ (INT_MIN < n <= 0 -> buildHermiteJacobi n D E = Ok (D, E)).
Proof.
  assert (Hint : INT_MAX = 2147483647) by reflexivity.
  assert (Hmin : INT_MIN = -2147483648) by reflexivity.
  split; [|split].
  - intros Hn HD HE; unfold buildHermiteJacobi.
    rewrite (for_range_fill_set (fun _ => zero)) by lia.
    rewrite map_const_zseq. cbn [bind].
    rewrite int_sub_id by lia.
    rewrite (for_range_fill_set jacobi_offdiag) by lia.
    reflexivity.
  - intros Hn [HD|HE]; unfold buildHermiteJacobi.
    + rewrite (for_range_fill_short _ (fun _ => zero)) by (auto; lia).
      reflexivity.
    + destruct (for_range 0 n _ D) as [D'| |] eqn:ED; cbn [bind]; auto.
      * rewrite int_sub_id by lia.
        rewrite (for_range_fill_short _ jacobi_offdiag) by (auto; lia).
        reflexivity.
      * exfalso.
        destruct (Z_lt_le_dec (Z.of_nat (length D)) n) as [Hs|Hl].
        -- rewrite (for_range_fill_short _ (fun _ => zero)) in ED
             by (auto; lia).
           discriminate.
        -- rewrite (for_range_fill_set (fun _ => zero)) in ED by lia.
           discriminate.
  - intros Hn; unfold buildHermiteJacobi.
    rewrite for_range_empty by lia. cbn [bind].
    rewrite int_sub_id by lia.
    rewrite for_range_empty by lia.
    reflexivity.
Qed.

Lemma buildHermiteJacobi_frame_witness :
  buildHermiteJacobi 2 [one; one; two] [one; one; two]
  = Ok ([zero; zero; two], [sqrt half; one; two])
  /\ buildHermiteJacobi 2 [one] [one] = Undefined
  /\ buildHermiteJacobi 0 [one] [two] = Ok ([one], [two]).
Proof.
  destruct (buildHermiteJacobi_frame 2 [one; one; two] [one; one; two]) as (H1 & _).
  destruct (buildHermiteJacobi_frame 2 [one] [one]) as (_ & H2 & _).
  destruct (buildHermiteJacobi_frame 0 [one] [two]) as (_ & _ & H3).
  split; [|split].
  - apply H1; simpl; unfold INT_MAX; lia.
  - apply H2; [unfold INT_MAX; lia|left; simpl; lia].
  - apply H3; unfold INT_MIN; lia.
Defined.

(** ** [hermitePolyCoef] on vectors of any length *)

(** X5. [hermitePolyCoef] overwrites the first [n + 1] elements of [c]
    with values that do not depend on what [c] held, and leaves the
    elements after them as they were; with [c] shorter than [n + 1] it
    stores outside the vector. *)
Theorem hermitePolyCoef_overwrites (n : Z) (c : vec double) :
  0 <= n -> (n + 1) * (n + 1) <= INT_MAX ->
  exists coef,
    Z.of_nat (length coef) = n + 1
    /\ hermitePolyCoef n (repeat zero (Z.to_nat (n + 1))) = Ok coef
    /\ (n + 1 <= Z.of_nat (length c) ->
        hermitePolyCoef n c = Ok (coef ++ skipn (Z.to_nat (n + 1)) c))
    /\ (Z.of_nat (length c) < n + 1 -> hermitePolyCoef n c = Undefined).
Proof.
  intros Hn Hmax.
  assert (Hint : INT_MAX = 2147483647) by reflexivity.
  destruct (Z.eq_dec n 0) as [->|Hn0]; [|destruct (Z.eq_dec n 1) as [->|Hn1]].
  - exists [one]. split; [reflexivity|]. split; [reflexivity|]. split.
    + intros Hc; destruct c as [|c0 c']; [simpl in Hc; lia|]. reflexivity.
    + intros Hc; destruct c as [|c0 c']; [reflexivity|simpl in Hc; lia].
  - exists [zero; two]. split; [reflexivity|]. split; [reflexivity|]. split.
    + intros Hc; destruct c as [|c0 [|c1 c']]; try (simpl in Hc; lia).
      change (hermitePolyCoef 1 (c0 :: c1 :: c'))
        with (c2 <- vset (c0 :: c1 :: c') 0 zero ;; vset c2 1 two).
      rewrite vset_Ok by lia. cbn [bind].
      rewrite vset_Ok by (rewrite list_upd_length; lia).
      reflexivity.
    + intros Hc; destruct c as [|c0 [|c1 c']]; try reflexivity.
      simpl in Hc; lia.
  - destruct (hermite_recurrence_total n (repeat 0 (Z.to_nat ((n + 1) * (n + 1)))))
      as (w & Hw & Hlw); [lia|lia|rewrite repeat_length; nia|].
    rewrite repeat_length in Hlw.
    set (f := fun j : Z => of_Z (nth (Z.to_nat (n + j * (n + 1))) w 0)).
    assert (Hbody : forall j (u : vec double), 0 <= j < n + 1 ->
              (v <- vget w (n [+] j [*] (n + 1))%int ;; vset u j (of_Z v))
              = vset u j (f j)).
    { intros j u Hj.
      assert (0 <= j * (n + 1) <= n * (n + 1)) by nia.
      int_norm.
      rewrite (vget_nth w _ 0) by nia.
      reflexivity. }
    assert (Hgen : forall c' : vec double,
              hermitePolyCoef n c'
              = for_range 0 (n + 1)
                  (fun j c => v <- vget w (n [+] j [*] (n + 1))%int ;; vset c j (of_Z v))
                  c').
    { intros c'; unfold hermitePolyCoef.
      int_norm.
      rewrite valloc_Ok by nia. cbn [bind].
      change (to_long zero) with 0.
      rewrite for_range_fill_same by nia. cbn [bind].
      destruct (Z.eqb_spec n 0); [lia|].
      destruct (Z.eqb_spec n 1); [lia|].
      rewrite Hw. reflexivity. }
    exists (map f (zseq 0 (Z.to_nat (n + 1)))).
    split; [rewrite length_map, zseq_length; lia|].
    split.
    { rewrite Hgen, (for_range_fill _ f) by (auto; rewrite repeat_length; lia).
      rewrite skipn_all2 by (rewrite repeat_length; lia).
      rewrite app_nil_r; reflexivity. }
    split.
    + intros Hc; rewrite Hgen.
      apply for_range_fill; auto; lia.
    + intros Hc; rewrite Hgen.
      apply (for_range_fill_short _ f); auto.
Qed.

Lemma hermitePolyCoef_overwrites_witness :
  hermitePolyCoef 2 [one; one; one; two] = Ok (map of_Z [-2; 0; 4] ++ [two])
  /\ hermitePolyCoef 2 [one; one] = Undefined.
Proof.
  destruct (hermitePolyCoef_overwrites 2 [one; one; one; two]) as (coef & _ & E & H & _);
    [lia|unfold INT_MAX; lia|].
  destruct (hermitePolyCoef_overwrites 2 [one; one]) as (_ & _ & _ & _ & H');
    [lia|unfold INT_MAX; lia|].
  split.
  - rewrite H by (simpl; lia).
    assert (Ec : coef = map of_Z [-2; 0; 4])
      by (vm_compute in E; inversion E; reflexivity).
    rewrite Ec; reflexivity.
  - apply H'; simpl; lia.
Defined.

(** ** [findPolyRoots] on vectors of any length *)

(** X6. With a coefficient vector of at most [n] elements (and [n >= 1])
    [findPolyRoots] reads [c[n]] outside the vector while it fills the
    last column of the companion matrix. *)
Theorem findPolyRoots_short_coefficients {lapack : Lapack}
    (c : vec double) (n : Z) (r : vec double) :
  1 <= n -> n * n <= INT_MAX ->
  Z.of_nat (length c) <= n ->
  companion c n = Undefined /\ findPolyRoots c n r = Undefined.
Proof.
  intros Hn Hmax Hc.
  assert (Hint : INT_MAX = 2147483647) by reflexivity.
  assert (E : companion c n = Undefined).
  { unfold companion.
    int_norm.
    rewrite valloc_Ok by nia. cbn [bind].
    rewrite for_range_fill_same by nia. cbn [bind].
    match goal with
    | |- context [for_range 1 n ?body ?s] =>
        destruct (for_range_inv (S := vec double)
                    (fun _ C => Z.of_nat (length C) = n * n) 1 n body s)
          as (C1 & HC1 & Hlen1)
    end.
    - lia.
    - rewrite repeat_length; nia.
    - intros i C Hi Hlen. cbv beta.
      assert (0 <= n * (i - 1) <= n * (n - 1)) by nia.
      int_norm.
      rewrite vset_Ok by nia.
      eexists; split; [reflexivity|].
      rewrite list_upd_length; exact Hlen.
    - rewrite HC1. cbn [bind].
      apply for_range_first_Undefined; [lia|].
      assert (Hcn : vget c n = Undefined).
      { unfold vget.
        destruct (Z.ltb_spec n 0); [lia|].
        rewrite (proj2 (nth_error_None c (Z.to_nat n))) by lia.
        reflexivity. }
      rewrite Hcn.
      destruct (vget c 0) as [c0| |] eqn:E0; cbn [bind]; auto.
      exfalso.
      unfold vget in E0. simpl in E0.
      destruct c; discriminate. }
  split; [exact E|].
  unfold findPolyRoots; rewrite E; reflexivity.
Qed.

Lemma findPolyRoots_short_coefficients_witness :
  @findPolyRoots lapack_sample [two] 1 [zero] = Undefined.
Proof.
  apply (@findPolyRoots_short_coefficients lapack_sample [two] 1 [zero]).
  - lia.
  - unfold INT_MAX; lia.
  - simpl; lia.
Defined.

Lemma findPolyRoots_as_store {lapack : Lapack} (c : vec double) (n : Z) :
  dgeev_conforms ->
  0 <= n -> n * n <= INT_MAX ->
  Z.of_nat (length c) = n + 1 ->
  exists roots,
    Z.of_nat (length roots) = n
    /\ forall r, findPolyRoots c n r = vstore r roots.
Proof.
  intros Hd Hn Hmax Hc.
  destruct (findPolyRoots_spec Hd c n (repeat zero (Z.to_nat n)) Hn Hmax Hc)
    as (C & HC & Hlen & _ & Hroots & Hlr); [rewrite repeat_length; lia|].
  set (q := dgeev (roots_call n C (-1))) in *.
  set (o := dgeev (roots_call n C (to_int (ge_WORK1 q)))) in *.
  exists (ge_WR o).
  split; [exact Hlr|].
  pose proof (Hd (roots_call n C (-1)) Hn) as Hq.
  cbv zeta in Hq; cbn [ge_LWORK roots_call] in Hq.
  change (-1 =? -1) with true in Hq; cbv iota in Hq.
  fold q in Hq.
  destruct Hq as (HqA & HqR & HqI & HqW).
  pose proof (Hd (roots_call n C (to_int (ge_WORK1 q))) Hn) as Ho.
  cbv zeta in Ho; cbn [ge_LWORK ge_A ge_N roots_call] in Ho.
  destruct (Z.eqb_spec (to_int (ge_WORK1 q)) (-1)) as [E|_]; [lia|].
  fold o in Ho.
  destruct Ho as (HoA & HoR & HoI).
  intros r'; unfold findPolyRoots; rewrite HC. cbn [bind].
  rewrite valloc_Ok by lia. cbn [bind].
  fold q. unfold roots_store.
  rewrite HqA, HqR, HqI.
  rewrite !vstore_Ok by (simpl; lia).
  cbn [bind app length skipn].
  rewrite valloc_Ok by exact HqW. cbn [bind].
  fold o.
  rewrite (vstore_Ok C) by lia. cbn [bind].
  destruct (vstore r' (ge_WR o)) as [r''| |]; cbn [bind]; auto.
  rewrite vstore_Ok by (rewrite repeat_length; lia).
  reflexivity.
Qed.

(** X7. With a [dgeev] that keeps to its documented sizes,
    [findPolyRoots] overwrites the first [n] elements of [r] with the real
    parts and leaves the elements after them as they were; with [r]
    shorter than [n] the eigenvalues are stored outside the vector. *)
Theorem findPolyRoots_result_frame {lapack : Lapack}
    (c : vec double) (n : Z) (r : vec double) :
  dgeev_conforms ->
  0 <= n -> n * n <= INT_MAX ->
  Z.of_nat (length c) = n + 1 ->
  exists roots,
    findPolyRoots c n (repeat zero (Z.to_nat n)) = Ok roots
    /\ Z.of_nat (length roots) = n
    /\ (n <= Z.of_nat (length r) ->
        findPolyRoots c n r = Ok (roots ++ skipn (Z.to_nat n) r))
    /\ (Z.of_nat (length r) < n -> findPolyRoots c n r = Undefined).
Proof.
  intros Hd Hn Hmax Hc.
  destruct (findPolyRoots_as_store c n Hd Hn Hmax Hc) as (roots & Hlr & Hgen).
  exists roots.
  split.
  { rewrite Hgen, vstore_Ok by (rewrite repeat_length; lia).
    rewrite skipn_all2 by (rewrite repeat_length; lia).
    rewrite app_nil_r; reflexivity. }
  split; [exact Hlr|].
  split.
  - intros Hr; rewrite Hgen, vstore_Ok by lia.
    do 3 f_equal; lia.
  - intros Hr; rewrite Hgen; unfold vstore.
    destruct (Nat.leb_spec (length roots) (length r)); [lia|reflexivity].
Qed.

Lemma findPolyRoots_result_frame_witness :
  @findPolyRoots lapack_sample [two; one] 1 [zero; one] = Ok [opp two; one]
  /\ @findPolyRoots lapack_sample [two; one] 1 [] = Undefined.
Proof.
  destruct (@findPolyRoots_result_frame lapack_sample [two; one] 1 [zero; one])
    as (roots & E & _ & H & _);
    [exact dgeev_triangular_conforms|lia|unfold INT_MAX; lia|reflexivity|].
  destruct (@findPolyRoots_result_frame lapack_sample [two; one] 1 [])
    as (_ & _ & _ & _ & H');
    [exact dgeev_triangular_conforms|lia|unfold INT_MAX; lia|reflexivity|].
  split.
  - rewrite H by (simpl; lia).
    assert (Er : roots = [opp two])
      by (vm_compute in E; inversion E; reflexivity).
    rewrite Er; reflexivity.
  - apply H'; simpl; lia.
Defined.

(** ** The output vectors of [quadInfoGolubWelsch] *)

Lemma for_loop_rel {St} (R : St -> St -> Prop) (body : Z -> St -> result St) k :
  forall i s1 s2,
    R s1 s2 ->
    (forall j t1 t2, R t1 t2 -> outcome_rel R (body j t1) (body j t2)) ->
    outcome_rel R (for_loop k i body s1) (for_loop k i body s2).
Proof.
  induction k as [|k IH]; intros i s1 s2 HR Hstep; simpl.
  - exact HR.
  - pose proof (Hstep i s1 s2 HR) as H.
    destruct (body i s1) as [t1| |], (body i s2) as [t2| |]; simpl in *;
      try contradiction; auto.
Qed.

Lemma firstn_list_upd_congr {A} (l1 l2 : list A) (p k : nat) (a : A) :
  firstn p l1 = firstn p l2 ->
  (p < length l1)%nat -> (p < length l2)%nat -> (k <= S p)%nat ->
  firstn k (list_upd l1 p a) = firstn k (list_upd l2 p a).
Proof.
  intros Hf H1 H2 Hk.
  replace k with (Nat.min k (S p)) by lia.
  rewrite <- !firstn_firstn.
  rewrite !firstn_list_upd_snoc by assumption.
  rewrite Hf; reflexivity.
Qed.

Lemma quad_prune_step_rel {libm : Libm} (n : Z) (mu0 : double) (W Zv : vec double)
    (j : Z) (t1 t2 : vec double * vec double * Z) :
  prune_rel t1 t2 ->
  outcome_rel prune_rel (quad_prune_step n mu0 W Zv j t1)
                        (quad_prune_step n mu0 W Zv j t2).
Proof.
  destruct t1 as ((x1 & w1) & p1), t2 as ((x2 & w2) & p2).
  intros (<- & Hp & Hlx & Hlw & Hfx & Hfw).
  unfold quad_prune_step.
  destruct (vget Zv _) as [z| |]; cbn [bind outcome_rel]; auto.
  destruct (ltb _ _).
  - simpl; auto 10.
  - destruct (vget W j) as [wi| |]; cbn [bind outcome_rel]; auto.
    unfold vset at 1 3.
    rewrite <- Hlx.
    destruct ((0 <=? p1) && (p1 <? Z.of_nat (length x1))) eqn:Ex;
      cbn [bind outcome_rel]; auto.
    unfold vset.
    rewrite <- Hlw.
    destruct ((0 <=? p1) && (p1 <? Z.of_nat (length w1))) eqn:Ew;
      cbn [bind outcome_rel]; auto.
    apply andb_true_iff in Ex; destruct Ex as (_ & Ex%Z.ltb_lt).
    apply andb_true_iff in Ew; destruct Ew as (_ & Ew%Z.ltb_lt).
    pose proof (uwrap32_range (p1 + 1)) as Hr.
    assert (Hle : uint_add p1 1 <= p1 + 1).
    { unfold uint_add, uwrap; change (2 ^ 32) with 4294967296.
      apply Z.mod_le; lia. }
    fold (uint_add p1 1) in Hr.
    simpl.
    repeat split; try lia.
    + rewrite !list_upd_length; exact Hlx.
    + rewrite !list_upd_length; exact Hlw.
    + apply firstn_list_upd_congr; auto; lia.
    + apply firstn_list_upd_congr; auto; lia.
Qed.

Lemma quadInfoGolubWelsch_xw_irrelevant {libm : Libm} {lapack : Lapack}
    (n : Z) (D E : vec double) (mu0 : double) (x w x' w' : vec double) :
  quadInfoGolubWelsch n D E mu0 x w = quadInfoGolubWelsch n D E mu0 x' w'.
Proof.
  unfold quadInfoGolubWelsch.
  destruct (quad_setup n) as [b| |]; cbn [bind]; auto.
  destruct (vstore (qb_W b) _) as [W| |]; cbn [bind]; auto.
  destruct (vstore (qb_Z b) _) as [Zv| |]; cbn [bind]; auto.
  set (M := sx_M (dstevx (quad_call n D E))).
  unfold vresize at 1 2 5 6.
  destruct (Z.ltb_spec M 0) as [HM|HM]; cbn [bind]; auto.
  set (x0 := firstn (Z.to_nat M) x ++ _).
  set (w0 := firstn (Z.to_nat M) w ++ _).
  set (x0' := firstn (Z.to_nat M) x' ++ _).
  set (w0' := firstn (Z.to_nat M) w' ++ _).
  assert (HR : prune_rel (x0, w0, 0) (x0', w0', 0)).
  { unfold prune_rel, x0, w0, x0', w0'.
    rewrite !length_app, !length_firstn, !repeat_length.
    repeat split; simpl; lia. }
  pose proof (for_loop_rel prune_rel (quad_prune_step n mu0 W Zv)
                (Z.to_nat (uint_of_int M - 0)) 0 _ _ HR
                (fun j t1 t2 => quad_prune_step_rel n mu0 W Zv j t1 t2)) as H.
  unfold for_range.
  destruct (for_loop _ 0 _ (x0, w0, 0)) as [((x1 & w1) & p1)| |],
           (for_loop _ 0 _ (x0', w0', 0)) as [((x2 & w2) & p2)| |];
    simpl in H; try contradiction; auto.
  destruct H as (<- & Hp & Hlx & Hlw & Hfx & Hfw).
  cbn [bind].
  unfold vresize.
  destruct (p1 <? 0); cbn [bind]; auto.
  rewrite Hfx, Hfw, Hlx, Hlw; reflexivity.
Qed.

(** X8. [x] and [w] are outputs only: whatever they hold and however long
    they are on entry, [quadInfoGolubWelsch] and
    [gaussHermiteDataGolubWelsch] have the same outcome and return the
    same two vectors. *)
Theorem quadInfoGolubWelsch_outputs_only {libm : Libm} {lapack : Lapack}
    (n : Z) (D E : vec double) (mu0 : double) (x w x' w' : vec double) :
  quadInfoGolubWelsch n D E mu0 x w = quadInfoGolubWelsch n D E mu0 x' w'
  /\ gaussHermiteDataGolubWelsch n x w = gaussHermiteDataGolubWelsch n x' w'.
Proof.
  split; [apply quadInfoGolubWelsch_xw_irrelevant|].
  unfold gaussHermiteDataGolubWelsch.
  destruct (valloc n zero) as [D0| |]; cbn [bind]; auto.
  destruct (buildHermiteJacobi n D0 D0) as [(D' & E')| |]; cbn [bind]; auto.
  rewrite (quadInfoGolubWelsch_xw_irrelevant n D' E' (sqrt M_PI) x w x' w').
  reflexivity.
Qed.

(** ** What [quadInfoGolubWelsch] never returns *)

Lemma for_loop_partial {St} (P : St -> Prop) (body : Z -> St -> result St) k :
  forall i s s',
    P s ->
    (forall j t t', P t -> body j t = Ok t' -> P t') ->
    for_loop k i body s = Ok s' -> P s'.
Proof.
  induction k as [|k IH]; intros i s s' HP Hstep; simpl.
  - intros H; inversion H; subst; exact HP.
  - destruct (body i s) as [t| |] eqn:E; cbn [bind]; try discriminate.
    apply IH; eauto.
Qed.

Lemma Forall_firstn_of {A} (P : A -> Prop) (l : list A) (k : nat) :
  Forall P l -> Forall P (firstn k l).
Proof.
  intros H; revert k; induction H as [|a l Ha Hl IH]; intros [|k]; simpl;
    constructor; auto.
Qed.

(** X9. Whatever the eigensolver stores, when [quadInfoGolubWelsch]
    returns, the two vectors have the same length, at most the count [M]
    the solver reported, and no weight is below [sqrt(epsilon)] in the
    comparison of line 119. *)
Theorem quadInfoGolubWelsch_never_below_threshold {libm : Libm} {lapack : Lapack}
    (n : Z) (D E : vec double) (mu0 : double) (x w xs ws : vec double) :
  quadInfoGolubWelsch n D E mu0 x w = Ok (xs, ws) ->
  length xs = length ws
  /\ Z.of_nat (length xs) <= sx_M (dstevx (quad_call n D E))
  /\ Forall (fun wv => ltb wv (sqrt epsilon) = false) ws.
Proof.
  unfold quadInfoGolubWelsch.
  destruct (quad_setup n) as [b| |]; cbn [bind]; try discriminate.
  destruct (vstore (qb_W b) _) as [W| |]; cbn [bind]; try discriminate.
  destruct (vstore (qb_Z b) _) as [Zv| |]; cbn [bind]; try discriminate.
  set (M := sx_M (dstevx (quad_call n D E))).
  unfold vresize at 1 2.
  destruct (Z.ltb_spec M 0) as [HM|HM]; cbn [bind]; try discriminate.
  set (x0 := firstn (Z.to_nat M) x ++ _).
  set (w0 := firstn (Z.to_nat M) w ++ _).
  assert (Hx0 : Z.of_nat (length x0) = M)
    by (unfold x0; rewrite length_app, length_firstn, repeat_length; lia).
  assert (Hw0 : Z.of_nat (length w0) = M)
    by (unfold w0; rewrite length_app, length_firstn, repeat_length; lia).
  clearbody x0 w0.
  set (P := fun s : vec double * vec double * Z =>
              let '(x1, w1, p) := s in
              Z.of_nat (length x1) = M /\ Z.of_nat (length w1) = M
              /\ 0 <= p <= M
              /\ Forall (fun wv => ltb wv (sqrt epsilon) = false)
                        (firstn (Z.to_nat p) w1)).
  destruct (for_range 0 (uint_of_int M) _ (x0, w0, 0))
    as [((x1 & w1) & p)| |] eqn:El; cbn [bind]; try discriminate.
  assert (HP : P (x1, w1, p)).
  { unfold for_range in El.
    apply (for_loop_partial P) in El; auto.
    - unfold P; simpl; repeat split; auto; lia.
    - intros j ((xa & wa) & pa) t' (Hxa & Hwa & Hpa & Hall).
      unfold quad_prune_step.
      destruct (vget Zv _) as [z| |]; cbn [bind]; try discriminate.
      destruct (ltb (mu0 * z * z)%D (sqrt epsilon)) eqn:Elt.
      + intros H; inversion H; subst; unfold P; auto.
      + destruct (vget W j) as [wi| |]; cbn [bind]; try discriminate.
        destruct (vset xa pa wi) as [xb| |] eqn:Exb; cbn [bind]; try discriminate.
        destruct (vset wa pa _) as [wb| |] eqn:Ewb; cbn [bind]; try discriminate.
        intros H; inversion H; subst; clear H.
        unfold vset in Exb, Ewb.
        destruct ((0 <=? pa) && (pa <? Z.of_nat (length xa))) eqn:Ex;
          [|discriminate].
        destruct ((0 <=? pa) && (pa <? Z.of_nat (length wa))) eqn:Ew;
          [|discriminate].
        inversion Exb; inversion Ewb; subst; clear Exb Ewb.
        apply andb_true_iff in Ew; destruct Ew as (_ & Ew%Z.ltb_lt).
        pose proof (uwrap32_range (pa + 1)) as Hr.
        assert (Hle : uint_add pa 1 <= pa + 1).
        { unfold uint_add, uwrap; change (2 ^ 32) with 4294967296.
          apply Z.mod_le; lia. }
        fold (uint_add pa 1) in Hr.
        unfold P; rewrite !list_upd_length.
        repeat split; try lia.
        replace (Z.to_nat (uint_add pa 1))
          with (Nat.min (Z.to_nat (uint_add pa 1)) (S (Z.to_nat pa))) by lia.
        rewrite <- firstn_firstn.
        rewrite firstn_list_upd_snoc by lia.
        apply Forall_firstn_of, Forall_app; split; auto. }
  destruct HP as (Hx1 & Hw1 & Hp & Hall).
  rewrite !vresize_shrink by lia. cbn [bind].
  intros H; inversion H; subst; clear H.
  rewrite !length_firstn.
  repeat split; try lia; exact Hall.
Qed.

Lemma quadInfoGolubWelsch_never_below_threshold_witness :
  length [zero] = length [sqrt M_PI]
  /\ Z.of_nat (length [zero])
     <= sx_M (@dstevx lapack_sample (quad_call 1 [zero] [zero]))
  /\ Forall (fun wv => ltb wv (sqrt epsilon) = false) [sqrt M_PI].
Proof.
  apply (@quadInfoGolubWelsch_never_below_threshold libm_sample lapack_sample
           1 [zero] [zero] (sqrt M_PI) [] []).
  vm_compute; reflexivity.
Defined.

(** ** The count the eigensolver reports *)

(** X10. When [dstevx] reports no eigenvalue in the window ([M = 0]) the
    rule returned is empty and nothing is signalled; when it reports a
    negative count, [x.resize(M)] throws. *)
Theorem quadInfoGolubWelsch_count_edges {libm : Libm} {lapack : Lapack}
    (n : Z) (D E : vec double) (mu0 : double) (x w : vec double) :
  let o := dstevx (quad_call n D E) in
  0 < n -> 5 * n <= INT_MAX ->
  Z.of_nat (length (sx_W o)) <= n ->
  Z.of_nat (length (sx_Z o))
  <= uint_mul (uint_add (Mmax_predicted n) 100) (uint_of_int n) ->
  (sx_M o = 0 -> quadInfoGolubWelsch n D E mu0 x w = Ok ([], []))
  /\ (sx_M o < 0 -> quadInfoGolubWelsch n D E mu0 x w = Throw).
Proof.
  intros o Hn H5 HW HZ.
  split.
  - intros HM.
    rewrite quadInfoGolubWelsch_spec; fold o; rewrite ?HM; try lia.
    reflexivity.
  - intros HM; unfold quadInfoGolubWelsch.
    rewrite quad_setup_Ok by assumption. cbn [bind qb_W qb_Z].
    fold o.
    pose proof (uwrap32_range (uint_add (Mmax_predicted n) 100 * uint_of_int n)) as Hcap.
    fold (uint_mul (uint_add (Mmax_predicted n) 100) (uint_of_int n)) in Hcap.
    rewrite !vstore_Ok by (rewrite repeat_length; lia). cbn [bind].
    unfold vresize at 1.
    destruct (Z.ltb_spec (sx_M o) 0); [reflexivity|lia].
Qed.

Lemma quadInfoGolubWelsch_count_edges_witness :
  @quadInfoGolubWelsch libm_sample (lapack_reporting 0)
     1 [zero] [zero] (sqrt M_PI) [one] [one] = Ok ([], [])
  /\ @quadInfoGolubWelsch libm_sample (lapack_reporting (-1))
       1 [zero] [zero] (sqrt M_PI) [one] [one] = Throw.
Proof.
  split.
  - apply (@quadInfoGolubWelsch_count_edges libm_sample (lapack_reporting 0)
             1 [zero] [zero] (sqrt M_PI) [one] [one]).
    + lia.
    + unfold INT_MAX; lia.
    + simpl; lia.
    + vm_compute; discriminate.
    + reflexivity.
  - apply (@quadInfoGolubWelsch_count_edges libm_sample (lapack_reporting (-1))
             1 [zero] [zero] (sqrt M_PI) [one] [one]).
    + lia.
    + unfold INT_MAX; lia.
    + simpl; lia.
    + vm_compute; discriminate.
    + simpl; lia.
Defined.

(** ** The entry point [gaussHermiteData] *)

(** X11. [gaussHermiteData] reads the order from the first element of
    [nR]: an empty [nR] is an access outside the vector; a negative order
    throws at the allocation of [x]; otherwise the result is the pair of
    vectors of [gaussHermiteDataGolubWelsch], whose status is dropped. *)
Theorem gaussHermiteData_entry {libm : Libm} {lapack : Lapack}
    (n : Z) (rest : vec Z) :
  gaussHermiteData [] = Undefined
  /\ (n < 0 -> gaussHermiteData (n :: rest) = Throw)
  /\ (0 <= n -> forall x w,
        gaussHermiteData (n :: rest)
        = ('(_, xs, ws) <- gaussHermiteDataGolubWelsch n x w ;; Ok (xs, ws))).
Proof.
  split; [reflexivity|]. split.
  - intros Hn; unfold gaussHermiteData.
    change (vget (n :: rest) 0) with (Ok n). cbn [bind].
    unfold valloc.
    destruct (Z.ltb_spec n 0); [reflexivity|lia].
  - intros Hn x w; unfold gaussHermiteData.
    change (vget (n :: rest) 0) with (Ok n). cbn [bind].
    rewrite !valloc_Ok by lia. cbn [bind].
    unfold gaussHermiteDataGolubWelsch.
    rewrite !valloc_Ok by lia. cbn [bind].
    destruct (buildHermiteJacobi n _ _) as [(D' & E')| |]; cbn [bind]; auto.
    rewrite (quadInfoGolubWelsch_xw_irrelevant n D' E' (sqrt M_PI)
               (repeat zero (Z.to_nat n)) (repeat zero (Z.to_nat n)) x w).
    reflexivity.
Qed.

Lemma gaussHermiteData_entry_witness :
  @gaussHermiteData libm_sample lapack_sample [-1; 5] = Throw
  /\ @gaussHermiteData libm_sample lapack_sample [1] = Ok ([zero], [sqrt M_PI]).
Proof.
  destruct (@gaussHermiteData_entry libm_sample lapack_sample (-1) [5])
    as (_ & H1 & _).
  destruct (@gaussHermiteData_entry libm_sample lapack_sample 1 [])
    as (_ & _ & H2).
  split; [apply H1; lia|].
  rewrite (H2 ltac:(lia) [] []).
  vm_compute; reflexivity.
Defined.

(** X12. When [(p + 100) * n] stays below [2^32], [p] being the predicted
    count of line 92, [Mmax] is [p + 100], [Z] has exactly [Mmax * n]
    elements, and for a solver that reports [M <= min(n, Mmax)]
    eigenvalues and stores [M * n] eigenvector entries,
    [gaussHermiteData] returns the eigenvalues and weights
    [sqrt(pi) * Z[i * n] * Z[i * n]] that are not below
    [sqrt(epsilon)]. *)
Theorem gaussHermiteData_returns {libm : Libm} {lapack : Lapack}
    (n : Z) (rest : vec Z) :
  let o := dstevx (quad_call n (jacobi_D n) (jacobi_E n)) in
  let kept := quad_kept n (sqrt M_PI) (sx_W o) (sx_Z o) (Z.to_nat (sx_M o)) in
  0 < n -> 5 * n <= INT_MAX ->
  (Mmax_predicted n + 100) * n < 4294967296 ->
  0 <= sx_M o <= n ->
  sx_M o <= Mmax_predicted n + 100 ->
  sx_M o <= Z.of_nat (length (sx_W o)) <= n ->
  Z.of_nat (length (sx_Z o)) = sx_M o * n ->
  exists b,
    quad_setup n = Ok b
    /\ qb_Mmax b = Mmax_predicted n + 100
    /\ Z.of_nat (length (qb_Z b)) = qb_Mmax b * n
    /\ gaussHermiteData (n :: rest) = Ok (map fst kept, map snd kept).
Proof.
  intros o kept Hn H5 Hcap HM HMmax HW HZ.
  assert (Hint : INT_MAX = 2147483647) by reflexivity.
  assert (Hp : 0 <= Mmax_predicted n < 4294967296)
    by (unfold Mmax_predicted, to_uint; apply uwrap32_range).
  assert (EM : uint_add (Mmax_predicted n) 100 = Mmax_predicted n + 100)
    by (apply uint_add_id; nia).
  assert (EZ : uint_mul (uint_add (Mmax_predicted n) 100) (uint_of_int n)
               = (Mmax_predicted n + 100) * n).
  { rewrite EM, (uint_of_int_id n) by lia. apply uint_mul_id; nia. }
  rewrite quad_setup_Ok by assumption.
  eexists; split; [reflexivity|].
  cbn [qb_Mmax qb_Z].
  split; [exact EM|].
  split; [rewrite repeat_length, EZ, EM; nia|].
  unfold gaussHermiteData.
  change (vget (n :: rest) 0) with (Ok n). cbn [bind].
  rewrite !valloc_Ok by lia. cbn [bind].
  rewrite gaussHermiteDataGolubWelsch_unfold by lia.
  rewrite quadInfoGolubWelsch_spec; fold o; try assumption; try (rewrite EZ; nia).
  reflexivity.
Qed.

Lemma gaussHermiteData_returns_witness :
  exists b,
    @quad_setup libm_sample 1 = Ok b
    /\ qb_Mmax b = 104
    /\ Z.of_nat (length (qb_Z b)) = qb_Mmax b * 1
    /\ @gaussHermiteData libm_sample lapack_sample [1] = Ok ([zero], [sqrt M_PI]).
Proof.
  apply (@gaussHermiteData_returns libm_sample lapack_sample 1 []).
  - lia.
  - unfold INT_MAX; lia.
  - vm_compute; reflexivity.
  - vm_compute; split; discriminate.
  - vm_compute; discriminate.
  - vm_compute; split; discriminate.
  - reflexivity.
Defined.

(** ** Negative orders *)

(** X13. For a negative order [n] (with [n * n] an [int]) [findPolyRoots]
    builds its [n * n] matrix and throws at the allocation of [valI]. *)
Theorem findPolyRoots_negative_order {lapack : Lapack}
    (c : vec double) (n : Z) (r : vec double) :
  n < 0 -> n * n <= INT_MAX ->
  companion c n = Ok (repeat zero (Z.to_nat (n * n)))
  /\ findPolyRoots c n r = Throw.
Proof.
  intros Hn Hmax.
  assert (Hint : INT_MAX = 2147483647) by reflexivity.
  assert (EC : companion c n = Ok (repeat zero (Z.to_nat (n * n)))).
  { unfold companion.
    rewrite int_mul_id by (unfold INT_MIN; nia).
    rewrite valloc_Ok by nia. cbn [bind].
    rewrite for_range_fill_same by nia. cbn [bind].
    rewrite for_range_empty by lia. cbn [bind].
    apply for_range_empty; lia. }
  split; [exact EC|].
  unfold findPolyRoots; rewrite EC. cbn [bind].
  unfold valloc.
  destruct (Z.ltb_spec n 0); [reflexivity|lia].
Qed.

Lemma findPolyRoots_negative_order_witness :
  companion [one] (-2) = Ok [zero; zero; zero; zero]
  /\ @findPolyRoots lapack_sample [one] (-2) [] = Throw.
Proof.
  apply (@findPolyRoots_negative_order lapack_sample [one] (-2) []).
  - lia.
  - unfold INT_MAX; lia.
Defined.

(** X14. [hermitePolyCoef] never returns for a negative order (with
    [(n + 1) * (n + 1)] an [int]): [work] is allocated and cleared, and
    then one of the three initial stores [work[0]], [work[1]],
    [work[1 + (n + 1)]] falls outside it. *)
Theorem hermitePolyCoef_negative_order (n : Z) (c : vec double) :
  n < 0 -> (n + 1) * (n + 1) <= INT_MAX ->
  hermitePolyCoef n c = Undefined.
Proof.
  intros Hn Hmax.
  assert (Hint : INT_MAX = 2147483647) by reflexivity.
  assert (Hmin : INT_MIN = -2147483648) by reflexivity.
  assert (E1 : (n [+] 1)%int = n + 1) by (apply int_add_id; nia).
  assert (H0 : (n =? 0) = false) by (apply Z.eqb_neq; lia).
  assert (H1 : (n =? 1) = false) by (apply Z.eqb_neq; lia).
  assert (Hrec : forall work : vec Z,
             Z.of_nat (length work) = (n + 1) * (n + 1) ->
             hermite_recurrence (n + 1) work = Undefined).
  { intros work Hlen; unfold hermite_recurrence.
    destruct (vset work 0 _) as [w0| |] eqn:E0; cbn [bind]; try reflexivity.
    - destruct (vset w0 1 _) as [w1| |] eqn:E1'; cbn [bind]; try reflexivity.
      + assert (L0 : length w0 = length work).
        { unfold vset in E0; destruct (_ && _); inversion E0.
          apply list_upd_length. }
        assert (L1 : 1 < Z.of_nat (length work)).
        { unfold vset in E1'.
          destruct (Z.ltb_spec 1 (Z.of_nat (length w0)));
            [lia|rewrite andb_false_r in E1'; discriminate]. }
        assert (Hn3 : n <= -3) by nia.
        assert (Hidx : (1 [+] 1 [*] (n + 1))%int < 0)
          by (rewrite int_mul_id, int_add_id by nia; lia).
        unfold vset at 1.
        destruct (Z.leb_spec 0 (1 [+] 1 [*] (n + 1))%int); [lia|reflexivity].
      + unfold vset in E1'; destruct (_ && _); discriminate.
    - unfold vset in E0; destruct (_ && _); discriminate. }
  unfold hermitePolyCoef; rewrite E1.
  rewrite int_mul_id by nia.
  rewrite valloc_Ok by nia. cbn [bind].
  change 0 with (to_long zero) at 2.
  rewrite for_range_fill_same by nia. cbn [bind].
  rewrite H0, H1, Hrec; [reflexivity|].
  rewrite repeat_length; nia.
Qed.

Lemma hermitePolyCoef_negative_order_witness :
  hermitePolyCoef (-1) [] = Undefined
  /\ hermitePolyCoef (-3) [one; one] = Undefined.
Proof.
  split.
  - apply (hermitePolyCoef_negative_order (-1) []).
    + lia.
    + unfold INT_MAX; lia.
  - apply (hermitePolyCoef_negative_order (-3) [one; one]).
    + lia.
    + unfold INT_MAX; lia.
Defined.

(** ** [gaussHermiteDataDirect] at the orders below 1 *)

(** X15. [gaussHermiteDataDirect] at the orders below 1: for [n <= -2]
    the allocation of [coef] throws; for [n = -1] the empty [coef] is
    handed to [hermitePolyCoef], which stores outside its workspace; for
    [n = 0], with a [dgeev] that keeps to its documented sizes, it returns
    0 and leaves [x] and [w] as they were. *)
Theorem gaussHermiteDataDirect_degenerate {libm : Libm} {lapack : Lapack}
    (n : Z) (x w : vec double) :
  (INT_MIN <= n <= -2 -> gaussHermiteDataDirect n x w = Throw)
  /\ (n = -1 -> gaussHermiteDataDirect n x w = Undefined)
  /\ (dgeev_conforms -> n = 0 -> gaussHermiteDataDirect n x w = Ok (0, x, w)).
Proof.
  assert (Hint : INT_MAX = 2147483647) by reflexivity.
  assert (Hmin : INT_MIN = -2147483648) by reflexivity.
  split; [|split].
  - intros Hn; unfold gaussHermiteDataDirect.
    rewrite int_add_id by lia.
    unfold valloc.
    destruct (Z.ltb_spec (n + 1) 0); [reflexivity|lia].
  - intros ->; reflexivity.
  - intros Hd ->.
    destruct (findPolyRoots_as_store [one] 0 Hd) as (roots & Hlr & Hgen);
      [lia|lia|reflexivity|].
    destruct roots; [|simpl in Hlr; lia].
    unfold gaussHermiteDataDirect.
    change (valloc (0 [+] 1)%int zero) with (Ok [zero]). cbn [bind].
    change (hermitePolyCoef 0 [zero]) with (Ok [one]). cbn [bind].
    rewrite Hgen. reflexivity.
Qed.

Lemma gaussHermiteDataDirect_degenerate_witness :
  @gaussHermiteDataDirect libm_sample lapack_sample (-5) [one] [two] = Throw
  /\ @gaussHermiteDataDirect libm_sample lapack_sample 0 [one] [two]
     = Ok (0, [one], [two]).
Proof.
  destruct (@gaussHermiteDataDirect_degenerate libm_sample lapack_sample
              (-5) [one] [two]) as (H1 & _).
  destruct (@gaussHermiteDataDirect_degenerate libm_sample lapack_sample
              0 [one] [two]) as (_ & _ & H2).
  split.
  - apply H1; unfold INT_MIN; lia.
  - apply H2; [exact dgeev_triangular_conforms|reflexivity].
Defined.

(** ** The host-facing wrappers *)

(** X16. The wrappers on input they cannot serve: an empty coefficient
    vector makes [findPolyRoots(SEXP)] ask R for a vector of length -1,
    which R refuses; an order [n <= -2] makes [hermitePolyCoef(SEXP)] ask
    for a vector of negative length [n + 1]; the order -1 passes the
    allocation and reaches the store outside [work]. *)
Theorem wrappers_invalid_input {lapack : Lapack} (s : store) :
  (forall cR, sread cR s = Ok [] -> findPolyRoots_SEXP cR s = Throw)
  /\ (forall nR n, vget nR 0 = Ok n -> INT_MIN <= n <= -2 ->
        hermitePolyCoef_SEXP nR s = Throw)
  /\ (forall nR, vget nR 0 = Ok (-1) -> hermitePolyCoef_SEXP nR s = Undefined).
Proof.
  assert (Hmin : INT_MIN = -2147483648) by reflexivity.
  split; [|split].
  - intros cR Hc; unfold findPolyRoots_SEXP.
    rewrite Hc; reflexivity.
  - intros nR n HnR Hn; unfold hermitePolyCoef_SEXP.
    rewrite HnR. cbn [bind].
    rewrite int_add_id by (unfold INT_MAX; lia).
    unfold NumericVector_new, valloc.
    destruct (Z.ltb_spec (n + 1) 0); [reflexivity|lia].
  - intros nR HnR; unfold hermitePolyCoef_SEXP.
    rewrite HnR. cbn [bind].
    change (NumericVector_new (-1 [+] 1)%int s) with (Ok (salloc [] s)).
    cbn [bind salloc].
    unfold as_vector.
    rewrite (sread_salloc_new [] s). cbn [bind salloc].
    unfold hermitePolyCoef_at.
    rewrite (sread_salloc_new [] (s ++ [[]])). cbn [bind].
    reflexivity.
Qed.

Lemma wrappers_invalid_input_witness :
  @findPolyRoots_SEXP lapack_sample 0%nat [[]] = Throw
  /\ hermitePolyCoef_SEXP [-2] [[]] = Throw
  /\ hermitePolyCoef_SEXP [-1] [[]] = Undefined.
Proof.
  destruct (@wrappers_invalid_input lapack_sample [[]]) as (H1 & H2 & H3).
  split; [|split].
  - apply H1; reflexivity.
  - apply (H2 [-2] (-2)); [reflexivity|unfold INT_MIN; lia].
  - apply H3; reflexivity.
Defined.

Lemma sread_salloc_old2 (a : addr) (u v : vec double) (s : store) :
  (a < length s)%nat -> sread a ((s ++ [u]) ++ [v]) = sread a s.
Proof.
  intros H.
  rewrite sread_salloc_old by (rewrite length_app; simpl; lia).
  apply sread_salloc_old; exact H.
Qed.

(** X17. The wrappers leave every vector already in the store as it was,
    the argument included: the address returned is a fresh one, and all
    stores of the computation go to a copy. *)
Theorem wrappers_preserve_store {lapack : Lapack} (s : store) :
  dgeev_conforms ->
  (forall (cR : addr) (c : vec double),
      sread cR s = Ok c ->
      1 <= Z.of_nat (length c) ->
      (Z.of_nat (length c) - 1) * (Z.of_nat (length c) - 1) <= INT_MAX ->
      exists roots s',
        findPolyRoots_SEXP cR s = Ok (roots, s')
        /\ (length s <= roots)%nat
        /\ forall a, (a < length s)%nat -> sread a s' = sread a s)
  /\ (forall (nR : vec Z) (n : Z),
         vget nR 0 = Ok n ->
         0 <= n -> (n + 1) * (n + 1) <= INT_MAX ->
         exists coef s',
           hermitePolyCoef_SEXP nR s = Ok (coef, s')
           /\ (length s <= coef)%nat
           /\ forall a, (a < length s)%nat -> sread a s' = sread a s).
Proof.
  intros Hd.
  assert (Hint : INT_MAX = 2147483647) by reflexivity.
  split.
  - intros cR c Hc Hlen Hmax.
    set (n := Z.of_nat (length c)) in *.
    pose proof (sread_Ok_lt _ _ _ Hc) as HcR.
    destruct (findPolyRoots_as_store c (n - 1) Hd) as (computed & Hlr & Hgen);
      [lia|exact Hmax|lia|].
    unfold findPolyRoots_SEXP.
    rewrite Hc. cbn [bind].
    fold n.
    rewrite swrap32_id by (unfold INT_MIN; nia).
    rewrite int_sub_id by (unfold INT_MIN; nia).
    unfold NumericVector_new, as_vector.
    rewrite valloc_Ok by lia. cbn [bind].
    set (z := repeat zero (Z.to_nat (n - 1))).
    unfold salloc at 1. cbn [bind fst snd].
    rewrite (sread_salloc_new z s). cbn [bind].
    unfold salloc at 1. cbn [bind fst snd].
    rewrite (sread_salloc_old2 cR z z s) by exact HcR.
    rewrite Hc. cbn [bind].
    unfold salloc at 1. cbn [bind fst snd].
    rewrite (sread_salloc_new c ((s ++ [z]) ++ [z])). cbn [bind].
    unfold findPolyRoots_at.
    rewrite (sread_salloc_old (length (s ++ [z])) c ((s ++ [z]) ++ [z]))
      by (rewrite !length_app; simpl; lia).
    rewrite (sread_salloc_new z (s ++ [z])). cbn [bind].
    rewrite Hgen, vstore_Ok by (unfold z; rewrite repeat_length; lia).
    cbn [bind].
    rewrite swrite_Ok by (rewrite !length_app; simpl; lia). cbn [bind].
    eexists; eexists; split; [reflexivity|].
    split; [lia|].
    intros a Ha.
    rewrite sread_list_upd_ne by (rewrite length_app; simpl; lia).
    rewrite sread_salloc_old by (rewrite !length_app; simpl; lia).
    apply sread_salloc_old2; exact Ha.
  - intros nR n HnR Hn Hmax.
    destruct (hermitePolyCoef_total n (repeat zero (Z.to_nat (n + 1))))
      as (computed & Hcomp & _); [lia|exact Hmax|rewrite repeat_length; lia|].
    unfold hermitePolyCoef_SEXP.
    rewrite HnR. cbn [bind].
    rewrite int_add_id by (unfold INT_MIN; nia).
    unfold NumericVector_new, as_vector.
    rewrite valloc_Ok by lia. cbn [bind].
    set (z := repeat zero (Z.to_nat (n + 1))) in *.
    unfold salloc at 1. cbn [bind fst snd].
    rewrite (sread_salloc_new z s). cbn [bind].
    unfold salloc at 1. cbn [bind fst snd].
    unfold hermitePolyCoef_at.
    rewrite (sread_salloc_new z (s ++ [z])). cbn [bind].
    rewrite Hcomp. cbn [bind].
    rewrite swrite_Ok by (rewrite !length_app; simpl; lia). cbn [bind].
    eexists; eexists; split; [reflexivity|].
    split; [lia|].
    intros a Ha.
    rewrite sread_list_upd_ne by (rewrite length_app; simpl; lia).
    apply sread_salloc_old2; exact Ha.
Qed.

Lemma wrappers_preserve_store_witness :
  (exists roots s',
      @findPolyRoots_SEXP lapack_sample 0%nat [[two; one]] = Ok (roots, s')
      /\ (1 <= roots)%nat
      /\ sread 0%nat s' = Ok [two; one])
  /\ (exists coef s',
         hermitePolyCoef_SEXP [3] [[two; one]] = Ok (coef, s')
         /\ (1 <= coef)%nat
         /\ sread 0%nat s' = Ok [two; one]).
Proof.
  destruct (@wrappers_preserve_store lapack_sample [[two; one]]
              dgeev_triangular_conforms) as (H1 & H2).
  split.
  - destruct (H1 0%nat [two; one]) as (roots & s' & E & Hf & Hs).
    + reflexivity.
    + simpl; lia.
    + simpl; unfold INT_MAX; lia.
    + exists roots, s'; split; [exact E|]. split; [exact Hf|].
      apply (Hs 0%nat); simpl; lia.
  - destruct (H2 [3] 3) as (coef & s' & E & Hf & Hs).
    + reflexivity.
    + lia.
    + unfold INT_MAX; lia.
    + exists coef, s'; split; [exact E|]. split; [exact Hf|].
      apply (Hs 0%nat); simpl; lia.
Defined.

(** ** The matrix the direct method hands to [dgeev] *)

Lemma direct_companion_checked :
  forallb direct_companion_check (zseq 1 25) = true.
Proof. vm_compute; reflexivity. Qed.

(** X18. For every order [n] from 1 to 25 the coefficient vector that
    [hermitePolyCoef] computes has the leading coefficient [2^n], and the
    companion matrix [findPolyRoots] builds from it holds finite numbers
    only: in this range the division by [c[n]] is never a division by
    zero and never overflows. *)
Theorem direct_companion_finite (n : Z) :
  1 <= n <= 25 ->
  exists coef C,
    hermitePolyCoef n (repeat zero (Z.to_nat (n + 1))) = Ok coef
    /\ nth (Z.to_nat n) coef zero = of_Z (2 ^ n)
    /\ companion coef n = Ok C
    /\ Forall (fun e => is_finite e = true) C.
Proof.
  intros Hn.
  pose proof direct_companion_checked as Hall.
  rewrite forallb_forall in Hall.
  specialize (Hall n ltac:(apply zseq_In; lia)).
  unfold direct_companion_check in Hall.
  apply andb_prop in Hall; destruct Hall as (Hlead & HC).
  apply Z.eqb_eq in Hlead.
  destruct (companion _ n) as [C| |] eqn:EC; try discriminate.
  exists (map of_Z (Hermite_coefficients n)), C.
  split.
  { replace n with (Z.of_nat (Z.to_nat n)) at 1 3 by lia.
    apply hermitePolyCoef_exact_nat; [lia|].
    rewrite repeat_length; lia. }
  split.
  { change zero with (of_Z 0) at 1; rewrite map_nth, Hlead; reflexivity. }
  split; [exact EC|].
  apply Forall_forall; intros e He.
  rewrite forallb_forall in HC; auto.
Qed.

Lemma direct_companion_finite_witness :
  exists coef C,
    hermitePolyCoef 2 [zero; zero; zero] = Ok coef
    /\ nth 2 coef zero = of_Z 4
    /\ companion coef 2 = Ok C
    /\ Forall (fun e => is_finite e = true) C.
Proof.
  apply (direct_companion_finite 2); lia.
Defined.
